(** * GithubCDN SDK: a shallow embedding of the upload, purge, recovery and
    reconstruction pipelines of [github_cdn_package/src/index.ts]. *)

From Stdlib Require Import ZArith List.
From Stdlib.Strings Require Import Byte Ascii.
From stdpp Require Import gmap strings list list_numbers pretty.

Local Open Scope Z_scope.

(** ** Part I: the model *)

(** *** Byte buffers *)

(** An [ArrayBuffer] is the list of its bytes; [byteLength] is its length. *)
Abbreviation bytes := (list byte).

Definition byteLength (buffer : bytes) : Z := Z.of_nat (length buffer).

(** [ArrayBuffer.prototype.slice(first, final)].  The pipelines only call it
    with bounds that are not negative, so the from-the-end reading that
    JavaScript gives to negative bounds is not modelled: a bound below zero
    acts as zero here. *)
Fixpoint slice (buffer : bytes) (first final : Z) : bytes :=
  match buffer with
  | [] => []
  | b :: rest =>
      if final <=? 0 then []
      else if first <=? 0 then b :: slice rest 0 (final - 1)
      else slice rest (first - 1) (final - 1)
  end.

(** *** Chunker *)

(** [const CHUNK_SIZE = 5 * 1024 * 1024] *)
Definition CHUNK_SIZE : Z := 5 * 1024 * 1024.

(** [Math.ceil(a / b)] on non-negative integers.  The source divides in
    floating point; for every [ArrayBuffer] length the quotient is far below
    2^53 and the rounding error far below [1 / CHUNK_SIZE], so the ceiling is
    the exact integer one. *)
Definition ceil_div (a b : Z) : Z := (a + b - 1) / b.

Definition totalChunks_of (totalSize : Z) : Z := ceil_div totalSize CHUNK_SIZE.

(** The slice taken by iteration [i] (counted from 0) of the upload loop:
    [buffer.slice(i * CHUNK_SIZE, Math.min((i + 1) * CHUNK_SIZE, totalSize))]. *)
Definition chunk_at (buffer : bytes) (i : Z) : bytes :=
  slice buffer (i * CHUNK_SIZE) (Z.min ((i + 1) * CHUNK_SIZE) (byteLength buffer)).

(** The chunks in the order the loop [for (i = 0; i < totalChunks; i++)]
    produces them; the chunk of iteration [i] is stored as [chunk_{i+1}]. *)
Definition chunks_of (buffer : bytes) : list bytes :=
  chunk_at buffer <$> seqZ 0 (totalChunks_of (byteLength buffer)).

(** *** Data model ([types.ts]) *)

(** [Required<CDNConfig>], as the constructor stores it. *)
Module CDNConfig.
Record t := mk {
  token : string; owner : string; repo : string;
  branch : string; userAgent : string }.
End CDNConfig.

(** [constructor(config)]: [{ branch: "main", userAgent: ..., ...config }]. *)
Definition new_GithubCDN (token owner repo : string)
    (branch userAgent : option string) : CDNConfig.t :=
  CDNConfig.mk token owner repo
    (default "main" branch) (default "Github-CDN-SDK-v6" userAgent).

Module CDNLinks.
Record t := mk { cdn : string; fastly : string; raw : string; origin : string }.
End CDNLinks.

(** A registry entry.  [links] is optional in a stored document: [list]
    fills it in when it is missing. *)
Module CDNAsset.
Record t := mk {
  id : string; name : string; size : Z; type : string; path : string;
  uploadedAt : string; links : option CDNLinks.t }.
End CDNAsset.

Module CDNManifest.
Record t := mk {
  id : string; fileName : string; uniqueId : string;
  totalChunks : Z; chunkSize : Z; totalSize : Z;
  mimeType : string; pathPrefix : string; uploadedAt : string;
  optimized : bool }.
End CDNManifest.

(** [CDNProgress] without [percentage], which the source computes in
    floating point ([Math.round((currentChunk / totalChunks) * 100)]). *)
Module CDNProgress.
Record t := mk {
  currentChunk : Z; totalChunks : Z; loaded : Z; total : Z; stage : string }.
End CDNProgress.

Module LogKind.
Inductive t := log | error | done | progress.
End LogKind.

Module LogType.
Inductive t := info | success | error | warning | process.
End LogType.

Module CDNLog.
Record t := mk {
  type : LogKind.t; message : string; logType : option LogType.t;
  progress : option CDNProgress.t; asset : option CDNAsset.t }.
End CDNLog.

(** *** Strings *)

(** [s.startsWith(p)] *)
Fixpoint startsWith (s p : string) {struct p} : bool :=
  match p, s with
  | EmptyString, _ => true
  | String _ _, EmptyString => false
  | String c p', String d s' => bool_decide (c = d) && startsWith s' p'
  end.


(** [name.replace(/[^a-zA-Z0-9._-]/g, "_")], one character at a time. *)
Definition safe_char (c : ascii) : bool :=
  let n := N_of_ascii c in
  ((97 <=? n) && (n <=? 122) || (65 <=? n) && (n <=? 90) ||
   (48 <=? n) && (n <=? 57) || (n =? 46) || (n =? 95) || (n =? 45))%N.

Fixpoint sanitize (s : string) : string :=
  match s with
  | EmptyString => EmptyString
  | String c rest => String (if safe_char c then c else "_"%char) (sanitize rest)
  end.

(** [String(n).padStart(2, "0")] *)
Definition padStart2 (n : Z) : string :=
  let s := pretty n in
  if (String.length s <? 2)%nat then "0" +:+ s else s.

(** *** The remote repository

    The GitHub Git Data API is an external collaborator of the SDK.  Its
    model here is the object store the SDK's requests rely on: objects are
    immutable and get a fresh identifier when created, a tree is a list of
    blob entries by full path (in the order they were written), and the
    (single) branch reference moves only by a fast-forward update, the
    default of [PATCH /git/refs] when [force] is not sent. *)

Abbreviation sha := nat (only parsing).

Module ItemType.
Inductive t := blob | tree.
Global Instance eq_dec : EqDecision t.
Proof. solve_decision. Defined.
End ItemType.

(** An entry of a listing, and of the [tree] array of [POST /git/trees]. *)
Module TreeItem.
Record t := mk { path : string; mode : string; type : ItemType.t; sha : sha }.
End TreeItem.

(** An entry of a stored tree: a blob at a full path. *)
Module BlobEntry.
Record t := mk { path : string; mode : string; sha : sha }.
End BlobEntry.

Definition as_item (e : BlobEntry.t) : TreeItem.t :=
  TreeItem.mk (BlobEntry.path e) (BlobEntry.mode e) ItemType.blob (BlobEntry.sha e).

Definition as_entry (i : TreeItem.t) : BlobEntry.t :=
  BlobEntry.mk (TreeItem.path i) (TreeItem.mode i) (TreeItem.sha i).

(** What a blob holds, by what [JSON.parse] makes of its text: a registry
    document, a manifest document, or bytes that are neither. *)
Inductive content :=
| Raw (data : bytes)
| ManifestDoc (m : CDNManifest.t)
| RegistryDoc (assets : list CDNAsset.t).

Inductive object :=
| Blob (c : content)
| Tree (entries : list BlobEntry.t)
| Commit (message : string) (tree : sha) (parents : list sha).

Record Repo := mkRepo { objects : list object; head : option sha }.

Inductive api_failure :=
| RefNotFound | NotFound | Unprocessable | PublishConflict | Unavailable.

Definition is_blob (r : Repo) (s : sha) : bool :=
  match objects r !! s with Some (Blob _) => true | _ => false end.

Definition is_commit (r : Repo) (s : sha) : bool :=
  match objects r !! s with Some (Commit _ _ _) => true | _ => false end.

(** The blob entries of a tree, given the identifier of the tree or of a
    commit that points to it. *)
Definition tree_entries (r : Repo) (s : sha) : option (list BlobEntry.t) :=
  match objects r !! s with
  | Some (Tree entries) => Some entries
  | Some (Commit _ t _) =>
      match objects r !! t with Some (Tree entries) => Some entries | _ => None end
  | _ => None
  end.

(** The directories on the way to a path: ["a/b/c"] gives ["a"] and ["a/b"]. *)
Fixpoint dirs_of (p : string) : list string :=
  match p with
  | EmptyString => []
  | String c rest =>
      (if bool_decide (c = "/"%char) then [EmptyString] else [])
      ++ (String c <$> dirs_of rest)
  end.

(** A recursive listing gives the blob entries and one [tree] entry per
    directory.  Sub-trees are not objects of their own in this model: a
    directory entry carries the identifier of the listed tree, which no blob
    lookup resolves. *)
Definition listing (self : sha) (entries : list BlobEntry.t) : list TreeItem.t :=
  (as_item <$> entries) ++
  ((fun d => TreeItem.mk d "040000" ItemType.tree self) <$>
     remove_dups (mjoin (dirs_of <$> (BlobEntry.path <$> entries)))).

Definition tree_id (r : Repo) (s : sha) : sha :=
  match objects r !! s with Some (Commit _ t _) => t | _ => s end.

(** [base_tree]: entries of the base are kept unless a new entry has the
    same path. *)
Definition overlay (base : list BlobEntry.t) (items : list TreeItem.t)
    : list BlobEntry.t :=
  List.filter
    (fun o => negb (existsb (fun n => bool_decide (TreeItem.path n = BlobEntry.path o)) items))
    base ++ (as_entry <$> items).

Definition valid_item (r : Repo) (i : TreeItem.t) : bool :=
  bool_decide (TreeItem.type i = ItemType.blob) && is_blob r (TreeItem.sha i).

(** [b] is reachable from [a] by following parents: the fast-forward test. *)
Fixpoint reaches (objs : list object) (fuel : nat) (a b : sha) : bool :=
  bool_decide (a = b) ||
  match fuel with
  | O => false
  | S fuel' =>
      match objs !! b with
      | Some (Commit _ _ parents) => existsb (reaches objs fuel' a) parents
      | _ => false
      end
  end.

Definition fast_forward (r : Repo) (old new : sha) : bool :=
  reaches (objects r) (length (objects r)) old new.

Definition put_object (r : Repo) (o : object) : sha * Repo :=
  (length (objects r), mkRepo (objects r ++ [o]) (head r)).

(** An endpoint answers from the repository and may change it. *)
Definition endpoint (X : Type) : Type := Repo -> api_failure + X * Repo.

(** [GET /git/refs/heads/{branch}], read as [ref.object.sha] *)
Definition GET_ref : endpoint sha := fun r =>
  match head r with Some h => inr (h, r) | None => inl RefNotFound end.

(** [GET /git/trees/{sha}?recursive=1], read as [treeData.tree] *)
Definition GET_tree (s : sha) : endpoint (list TreeItem.t) := fun r =>
  match tree_entries r s with
  | Some entries => inr (listing (tree_id r s) entries, r)
  | None => inl NotFound
  end.

(** [GET /git/blobs/{sha}], read as the decoded [content] *)
Definition GET_blob (s : sha) : endpoint content := fun r =>
  match objects r !! s with
  | Some (Blob c) => inr (c, r)
  | _ => inl NotFound
  end.

(** [GET /contents/{path}] on the branch, read as the decoded [content] *)
Definition GET_contents (p : string) : endpoint content := fun r =>
  match head r with
  | None => inl NotFound
  | Some h =>
      match tree_entries r h with
      | None => inl NotFound
      | Some entries =>
          match List.find (fun i => bool_decide (BlobEntry.path i = p)) entries with
          | Some i => GET_blob (BlobEntry.sha i) r
          | None => inl NotFound
          end
      end
  end.

(** [POST /git/blobs] *)
Definition POST_blob (c : content) : endpoint sha := fun r =>
  inr (put_object r (Blob c)).

(** [POST /git/trees] with [{ base_tree?, tree }] *)
Definition POST_tree (base_tree : option sha) (items : list TreeItem.t) : endpoint sha :=
  fun r =>
    if forallb (valid_item r) items then
      match base_tree with
      | None => inr (put_object r (Tree (as_entry <$> items)))
      | Some b =>
          match tree_entries r b with
          | Some base => inr (put_object r (Tree (overlay base items)))
          | None => inl Unprocessable
          end
      end
    else inl Unprocessable.

(** [POST /git/commits] with [{ message, tree, parents }] *)
Definition POST_commit (message : string) (tree : sha) (parents : list sha) : endpoint sha :=
  fun r =>
    match objects r !! tree with
    | Some (Tree _) =>
        if forallb (is_commit r) parents
        then inr (put_object r (Commit message tree parents))
        else inl Unprocessable
    | _ => inl Unprocessable
    end.

(** [PATCH /git/refs/heads/{branch}] with [{ sha }] and no [force] *)
Definition PATCH_ref (new : sha) : endpoint unit := fun r =>
  match head r with
  | None => inl RefNotFound
  | Some h =>
      if is_commit r new then
        if fast_forward r h new then inr (tt, mkRepo (objects r) (Some new))
        else inl PublishConflict
      else inl Unprocessable
  end.

(** What other clients of the repository may do between two requests of a
    pipeline: create an object, or land a snapshot of their own (a tree and
    a commit, then the same fast-forward update of the branch). *)
Inductive foreign_op :=
| ForeignBlob (c : content)
| ForeignTree (base_tree : option sha) (items : list TreeItem.t)
| ForeignCommit (message : string) (tree : sha) (parents : list sha)
| ForeignPublish (message : string) (base_tree : option sha)
    (items : list TreeItem.t) (parents : list sha).

Definition attempt {X} (e : endpoint X) (r : Repo) : Repo :=
  match e r with inr (_, r') => r' | inl _ => r end.

Definition foreign (r : Repo) (op : foreign_op) : Repo :=
  match op with
  | ForeignBlob c => attempt (POST_blob c) r
  | ForeignTree b items => attempt (POST_tree b items) r
  | ForeignCommit m t ps => attempt (POST_commit m t ps) r
  | ForeignPublish m b items ps =>
      match POST_tree b items r with
      | inr (t, r1) =>
          match POST_commit m t ps r1 with
          | inr (c, r2) => attempt (PATCH_ref c) r2
          | inl _ => r1
          end
      | inl _ => r
      end
  end.

(** The network a pipeline runs on: which of its requests fail (counted
    from 0 in the order they are sent), and what other clients do just
    before each of them is served. *)
Record Network := mkNetwork {
  faults : nat -> bool;
  others : nat -> list foreign_op }.

Definition quiet : Network := mkNetwork (fun _ => false) (fun _ => []).

(** *** Pipelines as state-and-error computations *)

(** The values the SDK throws. *)
Inductive error :=
| GitHubAPIError (why : api_failure)
| UnsupportedInput
| TypeError
| SyntaxError
| ManifestNotFound
| FetchFailed.

(** The world a pipeline runs in: the remote repository, the number of
    requests sent so far, and the logs handed to [onUpdate]. *)
Record World := mkWorld { remote : Repo; sent : nat; logs : list CDNLog.t }.

Definition M (A : Type) : Type := World -> (error + A) * World.

Global Instance M_ret : MRet M := fun A a w => (inr a, w).

Global Instance M_bind : MBind M := fun A B f m w =>
  match m w with
  | (inr a, w') => f a w'
  | (inl e, w') => (inl e, w')
  end.

Definition throw {A} (e : error) : M A := fun w => (inl e, w).

(** [try { m } catch (e) { h e }] *)
Definition try_catch {A} (m : M A) (h : error -> M A) : M A := fun w =>
  match m w with
  | (inl e, w') => h e w'
  | (inr a, w') => (inr a, w')
  end.

(** [onUpdate?.(log)], with a callback that records what it is given. *)
Definition onUpdate (l : CDNLog.t) : M unit := fun w =>
  (inr tt, mkWorld (remote w) (sent w) (logs w ++ [l])).

(** [JSON.parse] of a registry document, followed by the first array method
    the caller applies to it. *)
Definition parse_registry (c : content) : M (list CDNAsset.t) :=
  match c with
  | RegistryDoc assets => mret assets
  | ManifestDoc _ => throw TypeError
  | Raw _ => throw SyntaxError
  end.

(** [JSON.parse] of a manifest document.  A registry document read as a
    manifest would give JavaScript an object without the manifest's fields;
    the typed model has no such value and stops there. *)
Definition parse_manifest (c : content) : M CDNManifest.t :=
  match c with
  | ManifestDoc m => mret m
  | RegistryDoc _ => throw TypeError
  | Raw _ => throw SyntaxError
  end.

(** What [upload] accepts: a [File] or [Blob] (a [File] has a name), a Node
    [Buffer], a [{ name, type, buffer }] object, or anything else. *)
Inductive UploadInput :=
| InputBlob (type : string) (name : option string) (data : bytes)
| InputBuffer (data : bytes)
| InputNamed (name type : string) (buffer : bytes)
| InputOther.

(** [new Date()] as far as [upload] reads it. *)
Record Date := mkDate { getFullYear : Z; getMonth : Z; toISOString : string }.

(** The values [upload] draws from its environment: [Date.now()] for the
    default name, the random [uniqueId], and [new Date()]. *)
Record Entropy := mkEntropy { Date_now : Z; uniqueId : string; now : Date }.

(** [class GithubCDN] *)
Module GithubCDN.
Section methods.

Variable net : Network.
Variable config : CDNConfig.t.

(** [this.request(path, options)]: other clients act, then the request
    is served unless the network fails it. *)
Definition request {X} (e : endpoint X) : M X := fun w =>
  let r := foldl foreign (remote w) (others net (sent w)) in
  if faults net (sent w)
  then (inl (GitHubAPIError Unavailable), mkWorld r (S (sent w)) (logs w))
  else
    match e r with
    | inl f => (inl (GitHubAPIError f), mkWorld r (S (sent w)) (logs w))
    | inr (x, r') => (inr x, mkWorld r' (S (sent w)) (logs w))
    end.

(** [resolveLinks(asset)] *)
Definition resolveLinks (path : string) : CDNLinks.t :=
  let at_branch :=
    CDNConfig.owner config +:+ "/" +:+ CDNConfig.repo config +:+ "@" +:+
    CDNConfig.branch config +:+ "/" +:+ path in
  CDNLinks.mk
    ("https://cdn.jsdelivr.net/gh/" +:+ at_branch +:+ "/manifest.json")
    ("https://fastly.jsdelivr.net/gh/" +:+ at_branch +:+ "/manifest.json")
    ("https://raw.githubusercontent.com/" +:+ CDNConfig.owner config +:+ "/" +:+
     CDNConfig.repo config +:+ "/" +:+ CDNConfig.branch config +:+ "/" +:+
     path +:+ "/manifest.json")
    ("/api/fetch?file=" +:+ path).

(** [{ ...a, links: a.links || this.resolveLinks(a) }] *)
Definition with_links (a : CDNAsset.t) : CDNAsset.t :=
  CDNAsset.mk (CDNAsset.id a) (CDNAsset.name a) (CDNAsset.size a)
    (CDNAsset.type a) (CDNAsset.path a) (CDNAsset.uploadedAt a)
    (Some (default (resolveLinks (CDNAsset.path a)) (CDNAsset.links a))).

(** [async list()] *)
Definition list : M (Datatypes.list CDNAsset.t) :=
  try_catch
    (res ← request (GET_contents "registry.json");
     assets ← parse_registry res;
     mret (with_links <$> assets))
    (fun _ => mret []).

(** The [emit] helper of [delete], [fetch] and [sync]. *)
Definition emit (message : string) (logType : LogType.t) : M unit :=
  onUpdate (CDNLog.mk LogKind.log message (Some logType) None None).

(** [registry.filter(a => a.id !== id)] *)
Definition without_asset (id : string) (registry : Datatypes.list CDNAsset.t)
    : Datatypes.list CDNAsset.t :=
  List.filter (fun a => negb (bool_decide (CDNAsset.id a = id))) registry.

(** [treeData.tree.filter(i => !i.path.startsWith(folderPath))] *)
Definition outside (folderPath : string) (tree : Datatypes.list TreeItem.t)
    : Datatypes.list TreeItem.t :=
  List.filter (fun i => negb (startsWith (TreeItem.path i) folderPath)) tree.

(** [finalTree]: the blob entries that are kept, with [registry.json]
    pointed at the new registry blob. *)
Definition finalTree (newReg : sha) (filtered : Datatypes.list TreeItem.t)
    : Datatypes.list TreeItem.t :=
  (fun i =>
     if bool_decide (TreeItem.path i = "registry.json")
     then TreeItem.mk (TreeItem.path i) (TreeItem.mode i) (TreeItem.type i) newReg
     else TreeItem.mk (TreeItem.path i) (TreeItem.mode i) (TreeItem.type i) (TreeItem.sha i))
  <$> List.filter (fun i => bool_decide (TreeItem.type i = ItemType.blob)) filtered.

(** Steps of [delete] up to and including the commit: everything but the
    final update of the branch.  Gives the new commit. *)
Definition delete_stage (id folderPath : string) : M sha :=
  emit ("Purging entry: " +:+ id) LogType.warning;;
  headSha ← request GET_ref;
  emit "Filtering repository tree..." LogType.info;;
  treeData ← request (GET_tree headSha);
  let filtered := outside folderPath treeData in
  emit "Patching registry index..." LogType.info;;
  regNode ←
    match List.find (fun i => bool_decide (TreeItem.path i = "registry.json")) filtered with
    | Some i => mret i
    | None => throw TypeError
    end;
  regBlob ← request (GET_blob (TreeItem.sha regNode));
  registry ← parse_registry regBlob;
  let registry := without_asset id registry in
  newReg ← request (POST_blob (RegistryDoc registry));
  emit "Committing physical scrub..." LogType.process;;
  newTree ← request (POST_tree None (finalTree newReg filtered));
  request (POST_commit ("Scrub: " +:+ id) newTree [headSha]).

(** [async delete(id, folderPath, onUpdate)] *)
Definition delete (id folderPath : string) : M bool :=
  commit ← delete_stage id folderPath;
  request (PATCH_ref commit);;
  emit "Purge verified." LogType.success;;
  onUpdate (CDNLog.mk LogKind.done "Asset scrubbing complete." None None None);;
  mret true.

(** The [emit] helper of [upload], which fills in the progress payload. *)
Definition emit_upload (totalChunks totalSize : Z) (message : string)
    (logType : LogType.t) (progress : option Z) : M unit :=
  onUpdate
    (CDNLog.mk LogKind.log message (Some logType)
       ((fun currentChunk =>
           CDNProgress.mk currentChunk totalChunks
             (currentChunk * CHUNK_SIZE) totalSize message) <$> progress)
       None).

(** The body of [for (let i = 0; i < totalChunks; i++)], over the
    remaining values of [i]. *)
Fixpoint push_chunks (buffer : bytes) (path : string) (totalChunks totalSize : Z)
    (indices : Datatypes.list Z) (treeItems : Datatypes.list TreeItem.t)
    : M (Datatypes.list TreeItem.t) :=
  match indices with
  | [] => mret treeItems
  | i :: rest =>
      emit_upload totalChunks totalSize
        ("Pushing chunk " +:+ pretty (i + 1) +:+ "/" +:+ pretty totalChunks +:+ "...")
        LogType.process (Some (i + 1));;
      blob ← request (POST_blob (Raw (chunk_at buffer i)));
      push_chunks buffer path totalChunks totalSize rest
        (treeItems ++
         [TreeItem.mk (path +:+ "/chunk_" +:+ pretty (i + 1)) "100644" ItemType.blob blob])
  end.

(** The path prefix of an upload:
    [uploads/{yyyy}_{mm}/{uniqueId}_{sanitized name}]. *)
Definition upload_path (e : Entropy) (name : string) : string :=
  "uploads/" +:+ pretty (getFullYear (now e)) +:+ "_" +:+
  padStart2 (getMonth (now e) + 1) +:+ "/" +:+ uniqueId e +:+ "_" +:+ sanitize name.

(** [const manifest: CDNManifest = { ... }] *)
Definition upload_manifest (e : Entropy) (name type : string) (buffer : bytes)
    : CDNManifest.t :=
  CDNManifest.mk (uniqueId e) name (uniqueId e)
    (totalChunks_of (byteLength buffer)) CHUNK_SIZE (byteLength buffer)
    type (upload_path e name) (toISOString (now e)) true.

(** [const newAsset: CDNAsset = { ... }] *)
Definition upload_asset (e : Entropy) (name type : string) (buffer : bytes)
    : CDNAsset.t :=
  CDNAsset.mk (uniqueId e) name (byteLength buffer) type (upload_path e name)
    (toISOString (now e)) (Some (resolveLinks (upload_path e name))).

(** The probing of the input's shape at the head of [upload]: the name,
    the MIME type and the bytes, or the "Unsupported upload input" throw. *)
Definition resolve_input (e : Entropy) (input : UploadInput)
    : M (string * string * bytes) :=
  let default_name := "asset_" +:+ pretty (Date_now e) in
  let default_type := "application/octet-stream" in
  match input with
  | InputBlob type name data => mret (default default_name name, type, data)
  | InputBuffer data => mret (default_name, default_type, data)
  | InputNamed name type buffer => mret (name, type, buffer)
  | InputOther => throw UnsupportedInput
  end.

(** Steps of [upload] up to and including the commit: everything but the
    final update of the branch.  Gives the asset and the new commit. *)
Definition upload_stage (e : Entropy) (name type : string) (buffer : bytes)
    : M (CDNAsset.t * sha) :=
  let totalSize := byteLength buffer in
  let totalChunks := totalChunks_of totalSize in
  let path := upload_path e name in
  let emit := emit_upload totalChunks totalSize in
  emit ("Inverting Data: " +:+ name) LogType.info (Some 0);;
  baseSha ← request GET_ref;
  treeItems ← push_chunks buffer path totalChunks totalSize (seqZ 0 totalChunks) [];
  emit "Finalizing manifest..." LogType.info (Some totalChunks);;
  mBlob ← request (POST_blob (ManifestDoc (upload_manifest e name type buffer)));
  let treeItems :=
    treeItems ++ [TreeItem.mk (path +:+ "/manifest.json") "100644" ItemType.blob mBlob] in
  emit "Synchronizing registry..." LogType.info None;;
  registry ← list;
  let newAsset := upload_asset e name type buffer in
  let registry := newAsset :: registry in
  rBlob ← request (POST_blob (RegistryDoc registry));
  let treeItems :=
    treeItems ++ [TreeItem.mk "registry.json" "100644" ItemType.blob rBlob] in
  emit "Creating atomic commit..." LogType.process None;;
  tree ← request (POST_tree (Some baseSha) treeItems);
  commit ← request (POST_commit ("CDN Upload: " +:+ name) tree [baseSha]);
  mret (newAsset, commit).

(** [async upload(input, onUpdate)] *)
Definition upload (e : Entropy) (input : UploadInput) : M CDNAsset.t :=
  '(name, type, buffer) ← resolve_input e input;
  '(newAsset, commit) ← upload_stage e name type buffer;
  request (PATCH_ref commit);;
  emit_upload (totalChunks_of (byteLength buffer)) (byteLength buffer)
    "Upload successful." LogType.success
    (Some (totalChunks_of (byteLength buffer)));;
  onUpdate (CDNLog.mk LogKind.done "Success" None None (Some newAsset));;
  mret newAsset.

(** The registry entry [sync] derives from a manifest. *)
Definition recovered_asset (data : CDNManifest.t) : CDNAsset.t :=
  CDNAsset.mk (CDNManifest.id data) (CDNManifest.fileName data)
    (CDNManifest.totalSize data) (CDNManifest.mimeType data)
    (CDNManifest.pathPrefix data) (CDNManifest.uploadedAt data)
    (Some (resolveLinks (CDNManifest.pathPrefix data))).

(** [for (const m of manifests)] of [sync] *)
Fixpoint recover (manifests : Datatypes.list TreeItem.t)
    (recovered : Datatypes.list CDNAsset.t) : M (Datatypes.list CDNAsset.t) :=
  match manifests with
  | [] => mret recovered
  | m :: rest =>
      blob ← request (GET_blob (TreeItem.sha m));
      data ← parse_manifest blob;
      recover rest (recovered ++ [recovered_asset data])
  end.


End methods.
End GithubCDN.

(** *** Reconstruction ([fetch]) *)

(** How a call of the platform's [fetch] settles: with a response (whose
    [ok] flag tells a 2xx status from any other) or by rejecting. *)
Inductive outcome (B : Type) :=
| Response (ok : bool) (body : B)
| Rejected.
Arguments Response {B} ok body.
Arguments Rejected {B}.

(** One read mirror of an asset path: what it answers for
    [manifest.json] and for [chunk_{i}]. *)
Record Mirror := mkMirror {
  manifest_json : outcome content;
  chunk_file : Z -> outcome bytes }.

(** The stream a [ReadableStream] controller is in. *)
Inductive StreamState := Readable | Closed | Errored.

Global Instance StreamState_eq_dec : EqDecision StreamState.
Proof. solve_decision. Defined.

(** The state of [start(controller)]: the holding map, the next index to
    emit, the downloads in flight, the loop variable [i], and what
    [controller.enqueue] has been given so far. *)
Record Reconstruction := mkReconstruction {
  chunkMap : gmap Z bytes;
  next : Z;
  workers : list Z;
  cursor : Z;
  enqueued : list bytes;
  stream : StreamState }.

(** [while (chunkMap.has(next)) { enqueue; delete; next++ }].  The loop
    removes an entry at every turn, so the size of the map is fuel enough. *)
Fixpoint drain (fuel : nat) (m : gmap Z bytes) (n : Z) (out : list bytes)
    : gmap Z bytes * Z * list bytes :=
  match fuel with
  | O => (m, n, out)
  | S fuel' =>
      match m !! n with
      | Some b => drain fuel' (delete n m) (n + 1) (out ++ [b])
      | None => (m, n, out)
      end
  end.

(** What happens while a reconstruction runs.  [Launch] is one turn of
    [for (let i = 1; i <= totalChunks; i++)] that starts [download(i)];
    [Settle j] is the completion of [download(j)] together with the
    [finally] callback that takes it out of [workers]; [Finish] is
    [await Promise.all(workers); controller.close()].  The source launches
    as soon as there is room; the model lets a launch wait, which only adds
    schedules. *)
Inductive event := Launch | Settle (j : Z) | Finish.

Module Fetch.
Section fetch.

(** [sources[0]] and [sources[1]], resolved for the asset path. *)
Variable primary secondary : Mirror.

(** [getManifest()] followed by the [ok] test and [mRes.json()]. *)
Definition getManifest : M CDNManifest.t :=
  GithubCDN.emit "Retrieving manifest..." LogType.info;;
  '(mRes, source) ←
    match manifest_json primary with
    | Response true body => mret (Response true body, "Public CDN")
    | _ =>
        GithubCDN.emit "CDN miss. Fetching via Auth..." LogType.warning;;
        mret (manifest_json secondary, "GitHub Auth")
    end;
  match mRes with
  | Rejected => throw FetchFailed
  | Response false _ => throw ManifestNotFound
  | Response true body =>
      manifest ← parse_manifest body;
      GithubCDN.emit
        ("Verified via " +:+ source +:+ ". Pipelining " +:+
         pretty (CDNManifest.totalChunks manifest) +:+ " chunks.")
        LogType.success;;
      mret manifest
  end.

(** [get()] of [download(i)] followed by [r.arrayBuffer()]: the primary
    mirror's body when it answers [ok], otherwise whatever the secondary
    mirror answers. *)
Definition get (i : Z) : error + bytes :=
  match chunk_file primary i with
  | Response true body => inr body
  | _ =>
      match chunk_file secondary i with
      | Response _ body => inr body
      | Rejected => inl FetchFailed
      end
  end.

Variable manifest : CDNManifest.t.

(** The state [start] begins in. *)
Definition start : Reconstruction :=
  mkReconstruction ∅ 1 [] 1 [] Readable.

Definition drop_worker (j : Z) (ws : list Z) : list Z :=
  List.filter (fun k => negb (bool_decide (k = j))) ws.

Definition step (ev : event) (s : Reconstruction) : option Reconstruction :=
  match ev with
  | Launch =>
      if bool_decide (stream s = Readable)
         && bool_decide (cursor s <= CDNManifest.totalChunks manifest)
         && bool_decide (length (workers s) < 10)%nat
      then Some (mkReconstruction (chunkMap s) (next s) (workers s ++ [cursor s])
                   (cursor s + 1) (enqueued s) (stream s))
      else None
  | Settle j =>
      if bool_decide (j ∈ workers s) then
        match get j with
        | inl _ =>
            Some (mkReconstruction (chunkMap s) (next s) (drop_worker j (workers s))
                    (cursor s) (enqueued s)
                    (if bool_decide (stream s = Readable) then Errored else stream s))
        | inr b =>
            let m := <[j := b]> (chunkMap s) in
            if bool_decide (stream s = Readable) then
              let '(m', n', out') := drain (size m) m (next s) (enqueued s) in
              Some (mkReconstruction m' n' (drop_worker j (workers s))
                      (cursor s) out' (stream s))
            else
              Some (mkReconstruction m (next s) (drop_worker j (workers s))
                      (cursor s) (enqueued s) (stream s))
        end
      else None
  | Finish =>
      if bool_decide (stream s = Readable)
         && bool_decide (CDNManifest.totalChunks manifest < cursor s)
         && bool_decide (workers s = [])
      then Some (mkReconstruction (chunkMap s) (next s) (workers s)
                   (cursor s) (enqueued s) Closed)
      else None
  end.

(** A schedule is run from left to right; it is refused as soon as one of
    its events cannot happen. *)
Fixpoint run (schedule : list event) (s : Reconstruction) : option Reconstruction :=
  match schedule with
  | [] => Some s
  | ev :: rest =>
      match step ev s with
      | Some s' => run rest s'
      | None => None
      end
  end.

End fetch.

(** [async fetch(assetPath, onUpdate)]: the manifest, and the stream as
    the state its [start] begins in. *)
Definition fetch (primary secondary : Mirror) : M (Reconstruction * CDNManifest.t) :=
  manifest ← getManifest primary secondary;
  mret (start, manifest).

End Fetch.

(** *** Vocabulary of the statements *)

(** The bytes [upload] reads from its input (none for an input it refuses). *)
Definition input_buffer (input : UploadInput) : bytes :=
  match input with
  | InputBlob _ _ data => data
  | InputBuffer data => data
  | InputNamed _ _ buffer => buffer
  | InputOther => []
  end.

(** A log whose progress payload, if it has one, counts whole chunks:
    [loaded] is [currentChunk] times the chunk size, [total] is the size of
    the buffer, and on the last chunk of a buffer that is not a whole number
    of chunks [loaded] is beyond [total]. *)
Definition counts_whole_chunks (buffer : bytes) (l : CDNLog.t) : Prop :=
  forall p, CDNLog.progress l = Some p ->
    CDNProgress.loaded p = CDNProgress.currentChunk p * 5242880 /\
    CDNProgress.total p = byteLength buffer /\
    CDNProgress.totalChunks p = totalChunks_of (byteLength buffer) /\
    (byteLength buffer `mod` 5242880 <> 0 ->
     CDNProgress.currentChunk p = CDNProgress.totalChunks p ->
     CDNProgress.total p < CDNProgress.loaded p).

(** The repository as the next request of a pipeline finds it: after the
    other clients scheduled before that request have acted. *)
Definition served (net : Network) (w : World) : Repo :=
  foldl foreign (remote w) (others net (sent w)).

(** The recursive listing of the tree of the branch head (empty when there
    is no branch or no tree). *)
Definition head_listing (r : Repo) : list TreeItem.t :=
  match head r with
  | Some h =>
      match GET_tree h r with
      | inr (items, _) => items
      | inl _ => []
      end
  | None => []
  end.

(** A repository is well formed when the branch, if there is one, points to
    a commit, and every commit points to a tree and to parents that were
    created before it. *)
Definition wf_object (c : nat) (o : object) : bool :=
  match o with
  | Commit _ t parents => bool_decide (t < c)%nat && forallb (fun p => bool_decide (p < c)%nat) parents
  | _ => true
  end.

Definition wf_repo (r : Repo) : bool :=
  match head r with Some h => is_commit r h | None => true end
  && forallb id (imap wf_object (objects r)).

(** A small repository: an empty registry, committed on the branch. *)
Definition example_repo : Repo :=
  mkRepo
    [Blob (RegistryDoc []);
     Tree [BlobEntry.mk "registry.json" "100644" 0%nat];
     Commit "init" 1%nat []]
    (Some 2%nat).

Definition example_world : World := mkWorld example_repo 0 [].

Definition example_config : CDNConfig.t := new_GithubCDN "t" "o" "r" None None.

Definition example_entropy : Entropy :=
  mkEntropy 1700000000000 "k3x9q2ab_lr2m0c" (mkDate 2026 0 "2026-01-24T12:00:00.000Z").

Definition example_input : UploadInput :=
  InputNamed "a b.txt" "text/plain" [x01; x02; x03]%byte.

(** A buffer of 12 MiB, all zero. *)
Definition twelve_MiB : bytes := replicate (Z.to_nat 12582912) x00.

(** The log [upload] emits before it pushes the chunk of iteration [i]. *)
Definition push_log (totalChunks totalSize i : Z) : CDNLog.t :=
  let message :=
    "Pushing chunk " +:+ pretty (i + 1) +:+ "/" +:+ pretty totalChunks +:+ "..." in
  CDNLog.mk LogKind.log message (Some LogType.process)
    (Some (CDNProgress.mk (i + 1) totalChunks ((i + 1) * CHUNK_SIZE) totalSize message))
    None.

(** The tree entry [upload] makes for the chunk of iteration [i]. *)
Definition chunk_item (path : string) (i : Z) (blob : sha) : TreeItem.t :=
  TreeItem.mk (path +:+ "/chunk_" +:+ pretty (i + 1)) "100644" ItemType.blob blob.

(** A network on which the fourth request fails and nobody else is at
    work.  For [example_input], which has one chunk, the fourth request of
    [upload] is the registry read. *)
Definition fourth_request_fails : Network :=
  mkNetwork (fun k => bool_decide (k = 3%nat)) (fun _ => []).

(** A network without failures on which another writer lands a snapshot
    on top of commit 2 just before the fifth request is served. *)
Definition rival_publishes : Network :=
  mkNetwork (fun _ => false)
    (fun k => if bool_decide (k = 4%nat)
              then [ForeignPublish "rival" (Some 2%nat) [] [2%nat]] else []).

(** The example world after [example_input] has been uploaded on a quiet
    network. *)
Definition example_uploaded : World :=
  (GithubCDN.upload quiet example_config example_entropy example_input example_world).2.

(** The mirrors serve the upload of [buffer]: for every chunk index of the
    buffer, [get] gives the bytes that [upload] stored as that chunk. *)
Definition serves_chunks (primary secondary : Mirror) (buffer : bytes) : Prop :=
  forall i, 1 <= i <= totalChunks_of (byteLength buffer) ->
    Fetch.get primary secondary i = inr (chunk_at buffer (i - 1)).

(** A manifest of [n] chunks, as far as [start] reads it. *)
Definition manifest_of_chunks (n : Z) : CDNManifest.t :=
  CDNManifest.mk "k3x9q2ab_lr2m0c" "a.bin" "k3x9q2ab_lr2m0c" n CHUNK_SIZE
    (n * CHUNK_SIZE) "application/octet-stream" "uploads/2026_01/k3x9q2ab_lr2m0c_a.bin"
    "2026-01-24T12:00:00.000Z" true.

(** A mirror that answers every chunk request with one byte, the chunk
    index, and a mirror that has nothing: it answers 404 with a body. *)
Definition one_byte_mirror : Mirror :=
  mkMirror (Response true (ManifestDoc (manifest_of_chunks 12)))
    (fun i => Response true [default x00 (Byte.of_N (Z.to_N i))]).

Definition not_found_body : bytes := [x34; x30; x34]%byte.

Definition not_found_mirror : Mirror :=
  mkMirror (Response true (ManifestDoc (manifest_of_chunks 1)))
    (fun _ => Response false not_found_body).

(** Chunk 1 is slow: the ten first downloads are launched, chunks 2 to 10
    arrive, each arrival making room for the launch of the next chunk, and
    then chunks 11 and 12 arrive; chunk 1 is still in flight. *)
Definition slow_first_chunk : list event :=
  replicate 10 Launch ++
  [Settle 2; Launch; Settle 3; Launch] ++
  (Settle <$> seqZ 4 9).



(** A read mirror in step with the branch: it serves what the tree of the
    branch head holds under the asset path, and answers 404 for the rest. *)
Definition mirror_of (r : Repo) (assetPath : string) : Mirror :=
  mkMirror
    (match GET_contents (assetPath +:+ "/manifest.json") r with
     | inr (c, _) => Response true c
     | inl _ => Response false (Raw not_found_body)
     end)
    (fun i =>
       match GET_contents (assetPath +:+ "/chunk_" +:+ pretty i) r with
       | inr (Raw data, _) => Response true data
       | _ => Response false not_found_body
       end).

(** The entries [upload] writes over the base tree: the chunks, the
    manifest and the registry, with the blobs they point to. *)
Definition upload_items (path : string) (n : Z) (first mBlob rBlob : sha)
    : list TreeItem.t :=
  imap (fun k i => chunk_item path i (first + k)%nat) (seqZ 0 n) ++
  [TreeItem.mk (path +:+ "/manifest.json") "100644" ItemType.blob mBlob;
   TreeItem.mk "registry.json" "100644" ItemType.blob rBlob].


(** The state of a reconstruction whose mirrors serve [body i] for chunk
    [i] of [n]: what has been enqueued is chunks 1 to [next - 1] in order,
    and every launched chunk from [next] on is in flight or held, never
    both, the held ones with their own bytes. *)
Definition in_order (body : Z -> bytes) (n : Z) (s : Reconstruction) : Prop :=
  stream s <> Errored /\
  1 <= next s <= cursor s /\ cursor s <= n + 1 /\
  enqueued s = body <$> seqZ 1 (next s - 1) /\
  (forall j, j ∈ workers s -> next s <= j < cursor s) /\
  (forall j b, chunkMap s !! j = Some b ->
     next s < j < cursor s /\ (j ∉ workers s) /\ b = body j) /\
  (forall j, next s <= j < cursor s -> j ∈ workers s \/ is_Some (chunkMap s !! j)) /\
  (stream s = Closed -> next s = n + 1).

(** *** Vocabulary of the proofs *)

(** Every log a computation adds satisfies [P]. *)
Definition emits (P : CDNLog.t -> Prop) {A} (m : M A) : Prop :=
  forall w, exists new, logs (m w).2 = logs w ++ new /\ Forall P new.

(** The repository only gains objects and the branch stays where it is. *)
Definition grows (r r' : Repo) : Prop :=
  head r' = head r /\ objects r `prefix_of` objects r'.

(** The repository only gains objects. *)
Definition extends (r r' : Repo) : Prop :=
  objects r `prefix_of` objects r'.

(** What any client can do to a well-formed repository short of a forced
    update: it stays well formed, it only gains objects, and the branch
    stays or moves to a commit that did not exist before. *)
Definition evolves (r r' : Repo) : Prop :=
  wf_repo r = true ->
  wf_repo r' = true /\
  objects r `prefix_of` objects r' /\
  (head r' = head r \/
   exists h', head r' = Some h' /\ is_Some (head r) /\ (length (objects r) <= h')%nat).

(** Whatever a computation does, the repository before and after are
    related by [Q]. *)
Definition keeps (Q : Repo -> Repo -> Prop) {A} (m : M A) : Prop :=
  forall w res w', m w = (res, w') -> Q (remote w) (remote w').

(** An endpoint that only adds objects, and keeps a well-formed repository
    well formed. *)
Definition adds_objects {X} (e : endpoint X) : Prop :=
  forall r x r', e r = inr (x, r') ->
    grows r r' /\ (wf_repo r = true -> wf_repo r' = true).

(** The same while the holding map is being drained, when it may still
    hold the next chunk to emit. *)
Definition draining (body : Z -> bytes) (limit : Z) (ws : list Z)
    (m : gmap Z bytes) (n : Z) (out : list bytes) : Prop :=
  out = body <$> seqZ 1 (n - 1) /\
  1 <= n <= limit /\
  (forall k, k ∈ ws -> n <= k < limit) /\
  (forall k b, m !! k = Some b -> n <= k < limit /\ (k ∉ ws) /\ b = body k) /\
  (forall k, n <= k < limit -> k ∈ ws \/ is_Some (m !! k)).

(** ** Part II: properties *)

Section slice_facts.

Lemma slice_nil first final : slice [] first final = [].
Proof. reflexivity. Qed.

Lemma slice_empty_range buffer first final :
  final <= first -> slice buffer first final = [].
Proof.
  revert first final.
  induction buffer as [|b rest IH]; intros first final Hle; simpl; [done|].
  destruct (Z.leb_spec final 0); [done|].
  destruct (Z.leb_spec first 0); [lia|].
  apply IH. lia.
Qed.

Lemma slice_all buffer final :
  byteLength buffer <= final -> slice buffer 0 final = buffer.
Proof.
  unfold byteLength. revert final.
  induction buffer as [|b rest IH]; intros final Hle; simpl in *; [done|].
  destruct (Z.leb_spec final 0); [lia|].
  f_equal. apply IH. lia.
Qed.

(** Two adjacent slices glue into one. *)
Lemma slice_glue buffer a b c :
  0 <= a -> a <= b -> b <= c ->
  slice buffer a b ++ slice buffer b c = slice buffer a c.
Proof.
  revert a b c.
  induction buffer as [|x rest IH]; intros a b c Ha Hab Hbc; simpl; [done|].
  destruct (Z.leb_spec b 0).
  - assert (a = 0) by lia. assert (b = 0) by lia. subst. simpl. done.
  - destruct (Z.leb_spec c 0); [lia|].
    destruct (Z.leb_spec a 0).
    + simpl. f_equal.
      assert (a = 0) by lia. subst.
      rewrite <- (IH 0 (b - 1) (c - 1)) by lia. done.
    + apply IH; lia.
Qed.

Lemma slice_length buffer a b :
  0 <= a -> a <= b -> b <= byteLength buffer ->
  byteLength (slice buffer a b) = b - a.
Proof.
  unfold byteLength. revert a b.
  induction buffer as [|x rest IH]; intros a b Ha Hab Hb; simpl in *; [lia|].
  destruct (Z.leb_spec b 0); [simpl; lia|].
  destruct (Z.leb_spec a 0).
  - simpl length. rewrite Nat2Z.inj_succ, IH by lia. lia.
  - rewrite IH by lia. lia.
Qed.

End slice_facts.

Section chunker_facts.

Lemma CHUNK_SIZE_eq : CHUNK_SIZE = 5242880.
Proof. reflexivity. Qed.

Lemma byteLength_nonneg buffer : 0 <= byteLength buffer.
Proof. unfold byteLength. lia. Qed.

(** [ceil_div] is the ceiling of the quotient. *)
Lemma ceil_div_spec a b :
  0 <= a -> 0 < b ->
  0 <= ceil_div a b /\ (ceil_div a b - 1) * b < a <= ceil_div a b * b.
Proof.
  intros Ha Hb. unfold ceil_div.
  pose proof (Z.div_mod (a + b - 1) b ltac:(lia)) as Hdm.
  pose proof (Z.mod_pos_bound (a + b - 1) b Hb) as Hmod.
  assert (0 <= (a + b - 1) / b) by (apply Z.div_pos; lia).
  nia.
Qed.

Lemma totalChunks_spec buffer :
  let n := totalChunks_of (byteLength buffer) in
  0 <= n /\ (n - 1) * CHUNK_SIZE < byteLength buffer <= n * CHUNK_SIZE.
Proof.
  apply ceil_div_spec; [apply byteLength_nonneg | rewrite CHUNK_SIZE_eq; lia].
Qed.

(** The first [k] chunks, glued, are the first [k * CHUNK_SIZE] bytes. *)
Lemma chunks_prefix buffer (k : nat) :
  mjoin (chunk_at buffer <$> seqZ 0 (Z.of_nat k))
  = slice buffer 0 (Z.min (Z.of_nat k * CHUNK_SIZE) (byteLength buffer)).
Proof.
  pose proof (byteLength_nonneg buffer) as Hlen.
  pose proof CHUNK_SIZE_eq as Hcs.
  induction k as [|k IH].
  - rewrite seqZ_nil by lia. simpl. rewrite slice_empty_range; [done | lia].
  - rewrite seqZ_S, fmap_app, join_app, IH. simpl. rewrite app_nil_r.
    unfold chunk_at. rewrite Z.add_0_l.
    destruct (Z.le_gt_cases (Z.of_nat k * CHUNK_SIZE) (byteLength buffer)) as [Hle|Hgt].
    + rewrite (Z.min_l (Z.of_nat k * CHUNK_SIZE)) by lia.
      rewrite slice_glue by lia. f_equal. lia.
    + rewrite (slice_empty_range buffer (Z.of_nat k * CHUNK_SIZE)) by lia.
      rewrite app_nil_r. f_equal. lia.
Qed.

Lemma chunks_concat buffer : mjoin (chunks_of buffer) = buffer.
Proof.
  destruct (totalChunks_spec buffer) as (Hn & Hlo & Hhi).
  unfold chunks_of.
  rewrite <- (Z2Nat.id (totalChunks_of (byteLength buffer))) by done.
  rewrite chunks_prefix, Z2Nat.id by done.
  apply slice_all. lia.
Qed.

Lemma chunks_length buffer :
  length (chunks_of buffer) = Z.to_nat (totalChunks_of (byteLength buffer)).
Proof. unfold chunks_of. by rewrite length_fmap, length_seqZ. Qed.

Lemma chunks_lookup buffer (k : nat) :
  Z.of_nat k < totalChunks_of (byteLength buffer) ->
  chunks_of buffer !! k = Some (chunk_at buffer (Z.of_nat k)).
Proof.
  intros Hk. unfold chunks_of.
  rewrite list_lookup_fmap, lookup_seqZ_lt by done. done.
Qed.

Lemma chunk_at_length buffer i :
  0 <= i < totalChunks_of (byteLength buffer) ->
  byteLength (chunk_at buffer i)
  = Z.min ((i + 1) * CHUNK_SIZE) (byteLength buffer) - i * CHUNK_SIZE.
Proof.
  intros Hi. destruct (totalChunks_spec buffer) as (Hn & Hlo & Hhi).
  pose proof CHUNK_SIZE_eq as Hcs.
  unfold chunk_at. apply slice_length; nia.
Qed.

Lemma chunk_sizes buffer :
  byteLength <$> chunks_of buffer
  = (fun i => Z.min ((i + 1) * CHUNK_SIZE) (byteLength buffer) - i * CHUNK_SIZE)
    <$> seqZ 0 (totalChunks_of (byteLength buffer)).
Proof.
  unfold chunks_of. rewrite <- list_fmap_compose.
  apply list_fmap_ext. intros k i Hi.
  apply lookup_seqZ in Hi.
  simpl. apply chunk_at_length. lia.
Qed.

End chunker_facts.

(** *** Running the pipeline monad *)

Section monad_facts.

Context {A B : Type}.

Lemma run_bind (m : M A) (f : A -> M B) w :
  (m ≫= f) w =
  match m w with
  | (inr a, w') => f a w'
  | (inl e, w') => (inl e, w')
  end.
Proof. reflexivity. Qed.


Lemma bind_inr_inv (m : M A) (f : A -> M B) w b w' :
  (m ≫= f) w = (inr b, w') ->
  exists a w1, m w = (inr a, w1) /\ f a w1 = (inr b, w').
Proof.
  rewrite run_bind. destruct (m w) as [[e|a] w1]; [discriminate|]. eauto.
Qed.


End monad_facts.

(** *** What a pipeline hands to [onUpdate] *)


Section emits_facts.

Variable P : CDNLog.t -> Prop.

Lemma emits_ret {A} (a : A) : emits P (mret a : M A).
Proof. intros w. exists []. simpl. by rewrite app_nil_r. Qed.

Lemma emits_throw {A} e : emits P (throw e : M A).
Proof. intros w. exists []. simpl. by rewrite app_nil_r. Qed.

Lemma emits_bind {A B} (m : M A) (f : A -> M B) :
  emits P m -> (forall a, emits P (f a)) -> emits P (m ≫= f).
Proof.
  intros Hm Hf w. rewrite run_bind.
  destruct (Hm w) as (new1 & E1 & F1).
  destruct (m w) as [[e|a] w1]; simpl in *.
  - eauto.
  - destruct (Hf a w1) as (new2 & E2 & F2).
    exists (new1 ++ new2). rewrite E2, E1, app_assoc. split; [done|].
    by apply Forall_app.
Qed.

Lemma emits_try_catch {A} (m : M A) (h : error -> M A) :
  emits P m -> (forall e, emits P (h e)) -> emits P (try_catch m h).
Proof.
  intros Hm Hh w. unfold try_catch.
  destruct (Hm w) as (new1 & E1 & F1).
  destruct (m w) as [[e|a] w1]; simpl in *.
  - destruct (Hh e w1) as (new2 & E2 & F2).
    exists (new1 ++ new2). rewrite E2, E1, app_assoc. split; [done|].
    by apply Forall_app.
  - eauto.
Qed.

Lemma emits_onUpdate l : P l -> emits P (onUpdate l).
Proof. intros Hl w. exists [l]. simpl. auto. Qed.

Lemma emits_request net {X} (e : endpoint X) : emits P (GithubCDN.request net e).
Proof.
  intros w. exists []. rewrite app_nil_r. unfold GithubCDN.request.
  destruct (faults net (sent w)); [done|].
  destruct (e _) as [f|[x r']]; done.
Qed.

End emits_facts.

Ltac emits_step :=
  first
    [ apply emits_ret
    | apply emits_throw
    | apply emits_request
    | apply emits_bind; [|intros ?]
    | apply emits_try_catch; [|intros ?]
    | match goal with
      | |- emits _ (match ?x with _ => _ end) => destruct x
      end ].

Section upload_logs.

Variable net : Network.
Variable config : CDNConfig.t.

Lemma emits_emit P message logType :
  P (CDNLog.mk LogKind.log message (Some logType) None None) ->
  emits P (GithubCDN.emit message logType).
Proof. apply emits_onUpdate. Qed.

Lemma emits_list P : emits P (GithubCDN.list net config).
Proof. unfold GithubCDN.list, parse_registry. repeat emits_step. Qed.

Lemma counts_no_progress buffer type message logType asset :
  counts_whole_chunks buffer (CDNLog.mk type message logType None asset).
Proof. intros p Hp. discriminate. Qed.

Lemma counts_emit_upload buffer message logType progress :
  emits (counts_whole_chunks buffer)
    (GithubCDN.emit_upload (totalChunks_of (byteLength buffer)) (byteLength buffer)
       message logType progress).
Proof.
  apply emits_onUpdate. intros p Hp. simpl in Hp.
  destruct progress as [cur|]; [|discriminate].
  injection Hp as <-. simpl.
  destruct (totalChunks_spec buffer) as (Hn & Hlo & Hhi).
  rewrite CHUNK_SIZE_eq in *. repeat split; try done.
  intros Hmod ->.
  assert (byteLength buffer <> totalChunks_of (byteLength buffer) * 5242880); [|lia].
  intros Heq. apply Hmod. rewrite Heq. apply Z.mod_mul. lia.
Qed.

Lemma counts_push_chunks buffer path indices items :
  emits (counts_whole_chunks buffer)
    (GithubCDN.push_chunks net buffer path (totalChunks_of (byteLength buffer))
       (byteLength buffer) indices items).
Proof.
  revert items. induction indices as [|i rest IH]; intros items; simpl.
  - apply emits_ret.
  - apply emits_bind; [apply counts_emit_upload|intros _].
    apply emits_bind; [apply emits_request|intros blob]. apply IH.
Qed.

Lemma counts_upload_stage e name type buffer :
  emits (counts_whole_chunks buffer)
    (GithubCDN.upload_stage net config e name type buffer).
Proof.
  unfold GithubCDN.upload_stage.
  repeat first
    [ apply counts_emit_upload | apply counts_push_chunks
    | apply emits_list | emits_step ].
Qed.

Lemma counts_upload e input :
  emits (counts_whole_chunks (input_buffer input))
    (GithubCDN.upload net config e input).
Proof.
  assert (forall name type buffer,
    emits (counts_whole_chunks buffer)
      ('(newAsset, commit) ← GithubCDN.upload_stage net config e name type buffer;
       GithubCDN.request net (PATCH_ref commit);;
       GithubCDN.emit_upload (totalChunks_of (byteLength buffer)) (byteLength buffer)
         "Upload successful." LogType.success
         (Some (totalChunks_of (byteLength buffer)));;
       onUpdate (CDNLog.mk LogKind.done "Success" None None (Some newAsset));;
       mret newAsset)) as Hrest.
  { intros name type buffer.
    apply emits_bind; [apply counts_upload_stage|intros [newAsset commit]].
    repeat first
      [ apply counts_emit_upload
      | apply emits_onUpdate; apply counts_no_progress
      | emits_step ]. }
  destruct input as [type name data|data|name type buffer|]; intros w.
  - apply Hrest.
  - apply Hrest.
  - apply Hrest.
  - exists []. simpl. by rewrite app_nil_r.
Qed.

End upload_logs.

(** *** Runs on a quiet network *)

Section quiet_runs.

Variable config : CDNConfig.t.

Lemma request_quiet {X} (e : endpoint X) w :
  GithubCDN.request quiet e w =
  match e (remote w) with
  | inl f => (inl (GitHubAPIError f), mkWorld (remote w) (S (sent w)) (logs w))
  | inr (x, r') => (inr x, mkWorld r' (S (sent w)) (logs w))
  end.
Proof. reflexivity. Qed.

(** The chunk loop on a quiet network: one blob per index, in order, at
    fresh identifiers, and one log and one tree entry for each. *)
Lemma push_chunks_quiet buffer path n size indices items w :
  GithubCDN.push_chunks quiet buffer path n size indices items w =
  (inr (items ++
        imap (fun k i => chunk_item path i (length (objects (remote w)) + k)%nat) indices),
   mkWorld
     (mkRepo (objects (remote w) ++ ((fun i => Blob (Raw (chunk_at buffer i))) <$> indices))
        (head (remote w)))
     (sent w + length indices)%nat
     (logs w ++ (push_log n size <$> indices))).
Proof.
  revert items w. induction indices as [|i rest IH]; intros items w.
  - destruct w as [[objs h] s l]. simpl.
    by rewrite !app_nil_r, Nat.add_0_r.
  - cbn [GithubCDN.push_chunks]. rewrite run_bind.
    unfold GithubCDN.emit_upload at 1. unfold onUpdate at 1. cbn [fmap option_fmap option_map].
    rewrite run_bind, request_quiet. cbn [POST_blob put_object remote].
    rewrite IH. cbn [remote sent logs objects head].
    rewrite imap_cons, <- !app_assoc, length_app. cbn [length app fmap list_fmap].
    f_equal; [f_equal; f_equal|f_equal; lia].
    f_equal; [unfold chunk_item; do 2 f_equal; lia|].
    apply imap_ext. intros k j _. simpl. f_equal. lia.
Qed.

End quiet_runs.

(** *** Chunking (C6) *)

Lemma twelve_MiB_length : byteLength twelve_MiB = 12582912.
Proof.
  unfold byteLength, twelve_MiB. rewrite length_replicate. apply Z2Nat.id. lia.
Qed.

Lemma twelve_MiB_sizes buffer :
  byteLength buffer = 12582912 ->
  byteLength <$> chunks_of buffer = [5242880; 5242880; 2097152].
Proof. intros Hsize. rewrite chunk_sizes, Hsize. reflexivity. Qed.

(** C6.  For every input buffer, [upload] splits it into exactly
    [totalChunks = ceil(totalSize / 5242880)] chunks, numbered from 1: chunk
    [i] is the byte range from [(i - 1) * 5242880] to
    [min(i * 5242880, totalSize)], it is not empty and at most 5242880 bytes
    long, and only the last one may be shorter; glued in order the chunks
    are the buffer, so they cover it once with no gap and no overlap.  The
    chunk loop posts exactly these chunks, one blob each, under the paths
    [chunk_1] to [chunk_{totalChunks}], and the manifest records
    [totalChunks], the chunk size and [totalSize].  A buffer of 12582912
    bytes (12 MiB) gives 3 chunks of sizes 5242880, 5242880 and 2097152 and
    a manifest with [totalSize = 12582912]. *)
Theorem upload_chunking (buffer : bytes) :
  let totalSize := byteLength buffer in
  let totalChunks := totalChunks_of totalSize in
  (0 <= totalChunks /\
   (totalChunks - 1) * 5242880 < totalSize <= totalChunks * 5242880) /\
  length (chunks_of buffer) = Z.to_nat totalChunks /\
  (forall i, 1 <= i <= totalChunks ->
     exists c,
       chunks_of buffer !! Z.to_nat (i - 1) = Some c /\
       c = slice buffer ((i - 1) * 5242880) (Z.min (i * 5242880) totalSize) /\
       0 < byteLength c <= 5242880 /\
       (i < totalChunks -> byteLength c = 5242880)) /\
  mjoin (chunks_of buffer) = buffer /\
  (forall path w,
     exists items w',
       GithubCDN.push_chunks quiet buffer path totalChunks totalSize
         (seqZ 0 totalChunks) [] w = (inr items, w') /\
       objects (remote w') =
         objects (remote w) ++ ((fun c => Blob (Raw c)) <$> chunks_of buffer) /\
       TreeItem.path <$> items =
         (fun i => path +:+ "/chunk_" +:+ pretty i) <$> seqZ 1 totalChunks /\
       forall (k : nat) c, chunks_of buffer !! k = Some c ->
         exists item, items !! k = Some item /\
           objects (remote w') !! TreeItem.sha item = Some (Blob (Raw c))) /\
  (forall e name type,
     let manifest := GithubCDN.upload_manifest e name type buffer in
     CDNManifest.totalChunks manifest = totalChunks /\
     CDNManifest.chunkSize manifest = 5242880 /\
     CDNManifest.totalSize manifest = totalSize) /\
  (totalSize = 12582912 ->
     totalChunks = 3 /\
     byteLength <$> chunks_of buffer = [5242880; 5242880; 2097152] /\
     forall e name type,
       CDNManifest.totalSize (GithubCDN.upload_manifest e name type buffer) = 12582912).
Proof.
  intros totalSize totalChunks.
  destruct (totalChunks_spec buffer) as (Hn & Hlo & Hhi).
  fold totalSize totalChunks in Hn, Hlo, Hhi. rewrite CHUNK_SIZE_eq in Hlo, Hhi.
  repeat apply conj.
  - done.
  - done.
  - done.
  - apply chunks_length.
  - intros i Hi. exists (chunk_at buffer (i - 1)).
    assert (Hlen : byteLength (chunk_at buffer (i - 1))
                   = Z.min (i * 5242880) totalSize - (i - 1) * 5242880).
    { rewrite chunk_at_length by (fold totalSize totalChunks; lia).
      rewrite CHUNK_SIZE_eq. fold totalSize. f_equal. f_equal. lia. }
    repeat apply conj.
    + rewrite <- (Z2Nat.id (i - 1)) at 2 by lia.
      apply chunks_lookup. fold totalSize totalChunks. lia.
    + unfold chunk_at. rewrite CHUNK_SIZE_eq. fold totalSize. f_equal. f_equal. lia.
    + lia.
    + lia.
    + lia.
  - apply chunks_concat.
  - intros path w. rewrite push_chunks_quiet. eexists _, _. split; [done|].
    cbn [remote objects app]. repeat apply conj.
    + unfold chunks_of. fold totalSize totalChunks. by rewrite <- list_fmap_compose.
    + rewrite fmap_imap, <- (fmap_add_seqZ 1 0), <- list_fmap_compose.
      rewrite <- imap_const. apply imap_ext. intros k i _. simpl.
      by rewrite (Z.add_comm 1 i).
    + intros k c Hc. unfold chunks_of in Hc. fold totalSize totalChunks in Hc.
      rewrite list_lookup_fmap in Hc.
      destruct (seqZ 0 totalChunks !! k) as [i|] eqn:Hi; [|discriminate].
      injection Hc as <-.
      exists (chunk_item path i (length (objects (remote w)) + k)%nat).
      rewrite list_lookup_imap, Hi. split; [done|]. simpl.
      rewrite lookup_app_r by lia.
      replace (length (objects (remote w)) + k - length (objects (remote w)))%nat
        with k by lia.
      by rewrite list_lookup_fmap, Hi.
  - done.
  - intros Hsize. unfold totalChunks, totalSize in *. repeat apply conj.
    + rewrite Hsize. reflexivity.
    + by apply twelve_MiB_sizes.
    + intros e name type. exact Hsize.
Qed.

Lemma upload_chunking_witness :
  byteLength <$> chunks_of twelve_MiB = [5242880; 5242880; 2097152].
Proof.
  pose proof (upload_chunking twelve_MiB) as H. cbv zeta in H.
  destruct H as (_ & _ & _ & _ & _ & _ & H).
  apply H, twelve_MiB_length.
Defined.

(** The sizes the 12 MiB scenario is stated with do not add up to the
    buffer: the last chunk of a 12582912-byte buffer has 2097152 bytes. *)
Lemma twelve_MiB_chunk_sizes :
  byteLength twelve_MiB = 12582912 /\
  byteLength <$> chunks_of twelve_MiB <> [5242880; 5242880; 1572864].
Proof.
  split; [apply twelve_MiB_length|].
  rewrite (twelve_MiB_sizes _ twelve_MiB_length). discriminate.
Qed.

(** *** Progress payloads (C10) *)

Section progress.

Variable config : CDNConfig.t.

Let any_log : CDNLog.t -> Prop := fun _ => True.

Lemma logs_bind_extend {A B} (m : M A) (f : A -> M B) w :
  (forall a, emits any_log (f a)) ->
  exists more, logs ((m ≫= f) w).2 = logs (m w).2 ++ more.
Proof.
  intros Hf. rewrite run_bind. destruct (m w) as [[e|a] w1]; simpl.
  - exists []. by rewrite app_nil_r.
  - destruct (Hf a w1) as (more & E & _). eauto.
Qed.

Lemma emit_upload_any net n size message logType progress :
  emits any_log (GithubCDN.emit_upload n size message logType progress)
  /\ emits any_log (GithubCDN.list net config).
Proof. split; [by apply emits_onUpdate | apply emits_list]. Qed.

(** On a quiet network with a branch, [upload] gets to push every chunk
    and logs each push. *)
Lemma upload_stage_quiet_logs {B} e name type buffer (K : CDNAsset.t * sha -> M B) w :
  head (remote w) <> None ->
  (forall x, emits any_log (K x)) ->
  let size := byteLength buffer in
  let n := totalChunks_of size in
  exists first more,
    logs ((GithubCDN.upload_stage quiet config e name type buffer ≫= K) w).2
    = logs w ++ [first] ++ (push_log n size <$> seqZ 0 n) ++ more.
Proof.
  intros Hhead HK size n.
  destruct (head (remote w)) as [h|] eqn:Hh; [|done].
  destruct (logs_bind_extend
              (GithubCDN.upload_stage quiet config e name type buffer) K w HK)
    as (more1 & ->).
  unfold GithubCDN.upload_stage. fold size n.
  rewrite run_bind. unfold GithubCDN.emit_upload at 1, onUpdate at 1.
  rewrite run_bind, request_quiet. cbn [remote].
  unfold GET_ref at 1. rewrite Hh.
  match goal with
  | |- context [ (?m ≫= ?f) ?w1 ] =>
      destruct (logs_bind_extend m f w1) as (more2 & ->)
  end.
  { intros items.
    repeat first
      [ apply emits_onUpdate; exact I
      | apply emits_list
      | emits_step ]. }
  rewrite push_chunks_quiet. cbn [snd logs].
  eexists _, (more2 ++ more1). by rewrite <- !app_assoc.
Qed.

End progress.

(** C10.  In every progress payload [upload] emits, on any network,
    [loaded] is [currentChunk * 5242880] (a count of whole chunks, not of
    the bytes transferred) and [total] is the size of the buffer; so for a
    buffer whose size is not a multiple of 5242880 every payload reporting
    the final chunk has [loaded] strictly above [total].  On a quiet network
    with a branch, such an upload does emit the event of its final chunk,
    ["Pushing chunk n/n..."], with [loaded = n * 5242880 > total]. *)
Theorem upload_progress_counts_whole_chunks net config e input w :
  let buffer := input_buffer input in
  let n := totalChunks_of (byteLength buffer) in
  (exists new,
     logs (GithubCDN.upload net config e input w).2 = logs w ++ new /\
     Forall (counts_whole_chunks buffer) new) /\
  (byteLength buffer `mod` 5242880 <> 0 -> head (remote w) <> None ->
   exists new l p,
     logs (GithubCDN.upload quiet config e input w).2 = logs w ++ new /\
     l ∈ new /\
     CDNLog.message l = "Pushing chunk " +:+ pretty n +:+ "/" +:+ pretty n +:+ "..." /\
     CDNLog.progress l = Some p /\
     CDNProgress.currentChunk p = n /\
     CDNProgress.loaded p = n * 5242880 /\
     CDNProgress.total p = byteLength buffer /\
     CDNProgress.total p < CDNProgress.loaded p).
Proof.
  intros buffer n. split; [apply counts_upload|].
  intros Hmod Hhead.
  destruct (totalChunks_spec buffer) as (Hn & Hlo & Hhi). fold n in Hn, Hlo, Hhi.
  rewrite CHUNK_SIZE_eq in Hlo, Hhi.
  assert (Hne : byteLength buffer <> n * 5242880).
  { intros Heq. apply Hmod. rewrite Heq. apply Z.mod_mul. lia. }
  assert (Hpos : 1 <= n).
  { destruct (Z.le_gt_cases 1 n); [done|].
    assert (byteLength buffer = 0) by (pose proof (byteLength_nonneg buffer); lia).
    exfalso. apply Hmod. by replace (byteLength buffer) with 0. }
  assert (Hstage : forall name type,
    exists first more,
      logs ((GithubCDN.upload_stage quiet config e name type buffer ≫=
             (fun '(newAsset, commit) =>
                GithubCDN.request quiet (PATCH_ref commit);;
                GithubCDN.emit_upload (totalChunks_of (byteLength buffer))
                  (byteLength buffer) "Upload successful." LogType.success
                  (Some (totalChunks_of (byteLength buffer)));;
                onUpdate (CDNLog.mk LogKind.done "Success" None None (Some newAsset));;
                mret newAsset)) w).2
      = logs w ++ [first] ++
        (push_log n (byteLength buffer) <$> seqZ 0 n) ++ more).
  { intros name type. apply upload_stage_quiet_logs; [done|].
    intros [newAsset commit].
    repeat first [ apply emits_onUpdate; exact I | emits_step ]. }
  assert (Hlast : push_log n (byteLength buffer) (n - 1)
                  ∈ push_log n (byteLength buffer) <$> seqZ 0 n).
  { apply list_elem_of_fmap. exists (n - 1). split; [done|]. apply elem_of_seqZ. lia. }
  assert (Hgoal : forall first more,
    logs (GithubCDN.upload quiet config e input w).2
    = logs w ++ [first] ++ (push_log n (byteLength buffer) <$> seqZ 0 n) ++ more ->
    exists new l p,
      logs (GithubCDN.upload quiet config e input w).2 = logs w ++ new /\
      l ∈ new /\
      CDNLog.message l = "Pushing chunk " +:+ pretty n +:+ "/" +:+ pretty n +:+ "..." /\
      CDNLog.progress l = Some p /\
      CDNProgress.currentChunk p = n /\
      CDNProgress.loaded p = n * 5242880 /\
      CDNProgress.total p = byteLength buffer /\
      CDNProgress.total p < CDNProgress.loaded p).
  { intros first more Hlogs.
    eexists _, (push_log n (byteLength buffer) (n - 1)), _.
    split; [exact Hlogs|]. split.
    { apply elem_of_app. right. apply elem_of_app. by left. }
    unfold push_log. cbn [CDNLog.message CDNLog.progress].
    replace (n - 1 + 1) with n by lia.
    split; [done|]. split; [done|]. cbn. rewrite CHUNK_SIZE_eq.
    repeat split; lia. }
  destruct input as [type name data|data|name type buf|]; cbn [input_buffer] in *.
  - destruct (Hstage (default ("asset_" +:+ pretty (Date_now e)) name) type)
      as (first & more & Hlogs). by apply (Hgoal first more).
  - destruct (Hstage ("asset_" +:+ pretty (Date_now e)) "application/octet-stream")
      as (first & more & Hlogs). by apply (Hgoal first more).
  - destruct (Hstage name type) as (first & more & Hlogs). by apply (Hgoal first more).
  - exfalso. apply Hmod. reflexivity.
Qed.

Lemma upload_progress_counts_whole_chunks_witness :
  exists l p,
    l ∈ logs (GithubCDN.upload quiet example_config example_entropy
                example_input example_world).2 /\
    CDNLog.progress l = Some p /\
    CDNProgress.loaded p = 5242880 /\
    CDNProgress.total p = 3.
Proof.
  destruct (upload_progress_counts_whole_chunks quiet example_config
              example_entropy example_input example_world) as [_ H].
  destruct H as (new & l & p & Hlogs & Hl & _ & Hp & _ & Hloaded & Htotal & _).
  - vm_compute. discriminate.
  - vm_compute. discriminate.
  - exists l, p. rewrite Hlogs. repeat split; [by apply elem_of_app; right|done..].
Defined.

(** *** How the repository changes *)

Section repository_facts.

Lemma forallb_imap_spec {A} (f : nat -> A -> bool) (l : list A) :
  forallb id (imap f l) = true <-> forall i x, l !! i = Some x -> f i x = true.
Proof.
  revert f. induction l as [|a l IH]; intros f.
  - split; [intros _ i x Hi; discriminate | done].
  - rewrite imap_cons. cbn [forallb id]. rewrite andb_true_iff, IH. split.
    + intros [H0 HS] [|i] x Hi; simpl in Hi; [by injection Hi as <- | by apply HS].
    + intros H. split; [by apply (H 0%nat) | intros i x Hi; by apply (H (S i))].
Qed.

Lemma wf_repo_spec r :
  wf_repo r = true <->
  (forall h, head r = Some h -> is_commit r h = true) /\
  (forall c o, objects r !! c = Some o -> wf_object c o = true).
Proof.
  unfold wf_repo. rewrite andb_true_iff, forallb_imap_spec. split.
  - intros [Hh Ho]. split; [|done]. intros h Eh. by rewrite Eh in Hh.
  - intros [Hh Ho]. split; [|done]. destruct (head r) as [h|]; [by apply Hh | done].
Qed.

Lemma is_commit_lt r c : is_commit r c = true -> (c < length (objects r))%nat.
Proof.
  unfold is_commit. destruct (objects r !! c) as [o|] eqn:E; [|done].
  intros _. by apply lookup_lt_Some in E.
Qed.

Lemma is_commit_prefix r r' c :
  objects r `prefix_of` objects r' -> is_commit r c = true -> is_commit r' c = true.
Proof.
  unfold is_commit. intros Hp.
  destruct (objects r !! c) as [o|] eqn:E; [|done].
  by rewrite (prefix_lookup_Some _ _ _ _ E Hp).
Qed.

Lemma is_blob_prefix r r' c :
  objects r `prefix_of` objects r' -> is_blob r c = true -> is_blob r' c = true.
Proof.
  unfold is_blob. intros Hp.
  destruct (objects r !! c) as [o|] eqn:E; [|done].
  by rewrite (prefix_lookup_Some _ _ _ _ E Hp).
Qed.

Global Instance grows_preorder : PreOrder grows.
Proof.
  split.
  - intros r. by split.
  - intros r1 r2 r3 [H1 P1] [H2 P2]. split; [congruence | by etrans].
Qed.

Global Instance extends_preorder : PreOrder extends.
Proof. unfold extends. split; [by intros r | intros r1 r2 r3 ??; by etrans]. Qed.

Global Instance evolves_preorder : PreOrder evolves.
Proof.
  split.
  - intros r Hwf. split; [done|]. split; [done|]. by left.
  - intros r1 r2 r3 H12 H23 Hwf.
    destruct (H12 Hwf) as (Hwf2 & P12 & Hh12).
    destruct (H23 Hwf2) as (Hwf3 & P23 & Hh23).
    split; [done|]. split; [by etrans|].
    destruct Hh23 as [E23|(h3 & E3 & S2 & L3)].
    + rewrite E23. destruct Hh12 as [E12|(h2 & E2 & S1 & L2)]; [by left|].
      right. eauto.
    + right. exists h3. split; [done|]. split.
      * destruct Hh12 as [E12|(h2 & E2 & S1 & L2)]; [by rewrite <- E12 | done].
      * apply prefix_length in P12. lia.
Qed.

Lemma grows_extends r r' : grows r r' -> extends r r'.
Proof. by intros [_ ?]. Qed.

Lemma grows_evolves r r' :
  grows r r' -> (wf_repo r = true -> wf_repo r' = true) -> evolves r r'.
Proof. intros [Hh Hp] Hwf Hr. split; [auto|]. split; [done|]. by left. Qed.

(** Adding an object that refers only to older ones. *)
Lemma put_object_grows r o :
  grows r (put_object r o).2 /\
  (wf_object (length (objects r)) o = true ->
   wf_repo r = true -> wf_repo (put_object r o).2 = true).
Proof.
  split; [split; [done | by apply prefix_app_r]|].
  intros Ho. rewrite !wf_repo_spec. intros [Hh Hobj]. cbn. split.
  - intros h Eh. apply (is_commit_prefix r); [by apply prefix_app_r | by apply Hh].
  - intros c o' Hc. apply lookup_app_Some in Hc as [Hc|[Hlen Hc]]; [by eapply Hobj|].
    destruct (c - length (objects r))%nat as [|k] eqn:Ek; [|done].
    simpl in Hc. injection Hc as <-. by replace c with (length (objects r)) by lia.
Qed.

Lemma GET_ref_adds : adds_objects GET_ref.
Proof.
  intros r x r'. unfold GET_ref. destruct (head r); [|done].
  intros [= <- <-]. by split.
Qed.

Lemma GET_tree_adds s : adds_objects (GET_tree s).
Proof.
  intros r x r'. unfold GET_tree. destruct (tree_entries r s); [|done].
  intros [= <- <-]. by split.
Qed.

Lemma GET_blob_adds s : adds_objects (GET_blob s).
Proof.
  intros r x r'. unfold GET_blob. destruct (objects r !! s) as [[c| |]|]; try done.
  intros [= <- <-]. by split.
Qed.

Lemma GET_contents_adds p : adds_objects (GET_contents p).
Proof.
  intros r x r'. unfold GET_contents.
  destruct (head r); [|done]. destruct (tree_entries r _); [|done].
  destruct (find _ _); [|done]. apply GET_blob_adds.
Qed.

Lemma POST_blob_adds c : adds_objects (POST_blob c).
Proof.
  intros r x r'. unfold POST_blob. intros [= <- <-].
  destruct (put_object_grows r (Blob c)) as [Hg Hwf]. split; [done|]. by apply Hwf.
Qed.

Lemma POST_tree_adds b items : adds_objects (POST_tree b items).
Proof.
  intros r x r'. unfold POST_tree. destruct (forallb _ _); [|done].
  destruct b as [b|].
  - destruct (tree_entries r b) as [base|]; [|done]. intros [= <- <-].
    destruct (put_object_grows r (Tree (overlay base items))) as [Hg Hwf].
    split; [done|]. by apply Hwf.
  - intros [= <- <-].
    destruct (put_object_grows r (Tree (as_entry <$> items))) as [Hg Hwf].
    split; [done|]. by apply Hwf.
Qed.

Lemma POST_commit_adds m t ps : adds_objects (POST_commit m t ps).
Proof.
  intros r x r'. unfold POST_commit.
  destruct (objects r !! t) as [[c|es|]|] eqn:Et; try done.
  destruct (forallb (is_commit r) ps) eqn:Eps; [|done]. intros [= <- <-].
  destruct (put_object_grows r (Commit m t ps)) as [Hg Hwf].
  split; [done|]. apply Hwf. cbn. apply andb_true_iff. split.
  - apply bool_decide_eq_true. by apply lookup_lt_Some in Et.
  - apply forallb_forall. intros p Hp. apply bool_decide_eq_true.
    apply is_commit_lt. rewrite forallb_forall in Eps. by apply Eps.
Qed.

End repository_facts.

Section branch_updates.

Lemma POST_commit_spec m t ps r c r' :
  POST_commit m t ps r = inr (c, r') ->
  c = length (objects r) /\ r' = mkRepo (objects r ++ [Commit m t ps]) (head r).
Proof.
  unfold POST_commit. destruct (objects r !! t) as [[?|?|]|]; try done.
  destruct (forallb _ _); [|done]. by intros [= <- <-].
Qed.

Lemma PATCH_ref_spec c r u r' :
  PATCH_ref c r = inr (u, r') ->
  r' = mkRepo (objects r) (Some c) /\ is_commit r c = true /\
  exists h, head r = Some h /\ fast_forward r h c = true.
Proof.
  unfold PATCH_ref. destruct (head r) as [h|]; [|done].
  destruct (is_commit r c) eqn:Ec; [|done].
  destruct (fast_forward r h c) eqn:Eff; [|done].
  intros [= <- <-]. eauto.
Qed.

Lemma PATCH_ref_wf c r u r' :
  PATCH_ref c r = inr (u, r') -> wf_repo r = true -> wf_repo r' = true.
Proof.
  intros Hp. apply PATCH_ref_spec in Hp as (-> & Hc & _).
  rewrite !wf_repo_spec. cbn. intros [_ Hobj]. split; [|done].
  by intros h [= <-].
Qed.

Lemma attempt_adds {X} (e : endpoint X) r :
  adds_objects e -> evolves r (attempt e r) /\ extends r (attempt e r).
Proof.
  intros He. unfold attempt. destruct (e r) as [f|[x r']] eqn:E; [done|].
  destruct (He _ _ _ E) as [Hg Hwf].
  split; [by apply grows_evolves | by apply grows_extends].
Qed.

(** Another client's step keeps the repository well formed, and moves the
    branch, if at all, to a commit it has just created. *)
Lemma foreign_evolves r op : evolves r (foreign r op) /\ extends r (foreign r op).
Proof.
  destruct op as [c|b items|m t ps|m b items ps]; cbn [foreign].
  - apply attempt_adds, POST_blob_adds.
  - apply attempt_adds, POST_tree_adds.
  - apply attempt_adds, POST_commit_adds.
  - destruct (POST_tree b items r) as [f|[t r1]] eqn:Et; [done|].
    destruct (POST_tree_adds _ _ _ _ _ Et) as [[Hh1 Hp1] Hwf1].
    destruct (POST_commit m t ps r1) as [f|[c r2]] eqn:Ec.
    { split; [by apply grows_evolves | done]. }
    destruct (POST_commit_adds _ _ _ _ _ _ Ec) as [[Hh2 Hp2] Hwf2].
    apply POST_commit_spec in Ec as [Hc _].
    assert (Hp : objects r `prefix_of` objects r2) by by etrans.
    unfold attempt. destruct (PATCH_ref c r2) as [f|[u r3]] eqn:Ep.
    { split; [|done]. apply grows_evolves; [split; [congruence | done] | auto]. }
    pose proof (PATCH_ref_wf _ _ _ _ Ep) as Hwf3.
    apply PATCH_ref_spec in Ep as (-> & _ & h & Eh & _).
    split; [|done]. intros Hwf. split; [auto|]. split; [done|].
    right. exists c. cbn. split; [done|]. split.
    + rewrite <- Hh1, <- Hh2, Eh. by eexists.
    + subst c. by apply prefix_length.
Qed.

Lemma served_evolves net w :
  evolves (remote w) (served net w) /\ extends (remote w) (served net w).
Proof.
  unfold served. generalize (others net (sent w)) as ops. generalize (remote w) as r.
  intros r ops. revert r. induction ops as [|op ops IH]; intros r; cbn [foldl].
  - split; reflexivity.
  - destruct (foreign_evolves r op) as [E1 X1].
    destruct (IH (foreign r op)) as [E2 X2].
    split; by etrans.
Qed.


(** Ancestors are older: the parent walk only goes to smaller identifiers. *)
Lemma reaches_le objs fuel a b :
  (forall c o, objs !! c = Some o -> wf_object c o = true) ->
  reaches objs fuel a b = true -> (a <= b)%nat.
Proof.
  intros Hwf. revert b. induction fuel as [|fuel IH]; intros b; cbn [reaches].
  - rewrite orb_false_r. intros ->%bool_decide_eq_true. lia.
  - rewrite orb_true_iff. intros [->%bool_decide_eq_true|Hp]; [lia|].
    destruct (objs !! b) as [[?|?|m t ps]|] eqn:Eb; try done.
    apply Hwf in Eb. cbn in Eb. apply andb_true_iff in Eb as [_ Eps].
    apply existsb_exists in Hp as (p & Hin & Hr).
    rewrite forallb_forall in Eps. apply Eps, bool_decide_eq_true in Hin.
    apply IH in Hr. lia.
Qed.

End branch_updates.

(** *** What the pipelines keep *)

Section keeps_facts.

Variable Q : Repo -> Repo -> Prop.
Context `{!PreOrder Q}.

Lemma keeps_ret {A} (a : A) : keeps Q (mret a : M A).
Proof. intros w res w' [= <- <-]. reflexivity. Qed.

Lemma keeps_throw {A} e : keeps Q (throw e : M A).
Proof. intros w res w' [= <- <-]. reflexivity. Qed.

Lemma keeps_onUpdate l : keeps Q (onUpdate l).
Proof. intros w res w' [= <- <-]. reflexivity. Qed.

Lemma keeps_bind {A B} (m : M A) (f : A -> M B) :
  keeps Q m -> (forall a, keeps Q (f a)) -> keeps Q (m ≫= f).
Proof.
  intros Hm Hf w res w'. rewrite run_bind.
  destruct (m w) as [[e|a] w1] eqn:E.
  - intros [= <- <-]. by eapply Hm.
  - intros E2. etrans; [by eapply Hm | by eapply Hf].
Qed.

Lemma keeps_try_catch {A} (m : M A) (h : error -> M A) :
  keeps Q m -> (forall e, keeps Q (h e)) -> keeps Q (try_catch m h).
Proof.
  intros Hm Hh w res w'. unfold try_catch.
  destruct (m w) as [[e|a] w1] eqn:E.
  - intros E2. etrans; [by eapply Hm | by eapply Hh].
  - intros [= <- <-]. by eapply Hm.
Qed.

Variable net : Network.
Hypothesis others_keep : forall w, Q (remote w) (served net w).
Hypothesis adding_keeps : forall r r', grows r r' ->
  (wf_repo r = true -> wf_repo r' = true) -> Q r r'.

Lemma keeps_request {X} (e : endpoint X) :
  adds_objects e -> keeps Q (GithubCDN.request net e).
Proof.
  intros He w res w'. unfold GithubCDN.request. fold (served net w).
  destruct (faults net (sent w)).
  - intros [= <- <-]. apply others_keep.
  - destruct (e (served net w)) as [f|[x r']] eqn:E; intros [= <- <-]; cbn.
    + apply others_keep.
    + etrans; [apply others_keep|]. destruct (He _ _ _ E). by apply adding_keeps.
Qed.

Variable config : CDNConfig.t.

Lemma keeps_list : keeps Q (GithubCDN.list net config).
Proof.
  unfold GithubCDN.list, parse_registry.
  apply keeps_try_catch; [|intros; apply keeps_ret].
  apply keeps_bind; [apply keeps_request, GET_contents_adds|intros c].
  apply keeps_bind; [destruct c; first [apply keeps_ret | apply keeps_throw]|].
  intros; apply keeps_ret.
Qed.

Lemma keeps_push_chunks buffer path n size indices items :
  keeps Q (GithubCDN.push_chunks net buffer path n size indices items).
Proof.
  revert items. induction indices as [|i rest IH]; intros items; cbn [GithubCDN.push_chunks].
  - apply keeps_ret.
  - apply keeps_bind; [apply keeps_onUpdate|intros _].
    apply keeps_bind; [apply keeps_request, POST_blob_adds|intros blob]. apply IH.
Qed.

Lemma keeps_recover manifests recovered :
  keeps Q (GithubCDN.recover net config manifests recovered).
Proof.
  revert recovered.
  induction manifests as [|m rest IH]; intros recovered; cbn [GithubCDN.recover].
  - apply keeps_ret.
  - apply keeps_bind; [apply keeps_request, GET_blob_adds|intros c].
    apply keeps_bind; [destruct c; first [apply keeps_ret | apply keeps_throw]|].
    intros data. apply IH.
Qed.

Lemma keeps_upload_stage e name type buffer :
  keeps Q (GithubCDN.upload_stage net config e name type buffer).
Proof.
  unfold GithubCDN.upload_stage, GithubCDN.emit_upload.
  repeat first
    [ apply keeps_ret | apply keeps_onUpdate | apply keeps_list
    | apply keeps_push_chunks
    | apply keeps_request;
      first [ apply GET_ref_adds | apply POST_blob_adds
            | apply POST_tree_adds | apply POST_commit_adds ]
    | apply keeps_bind; [|intros ?] ].
Qed.

Lemma keeps_delete_stage id folderPath :
  keeps Q (GithubCDN.delete_stage net id folderPath).
Proof.
  unfold GithubCDN.delete_stage, GithubCDN.emit, parse_registry.
  repeat first
    [ apply keeps_ret | apply keeps_throw | apply keeps_onUpdate
    | apply keeps_request;
      first [ apply GET_ref_adds | apply GET_tree_adds | apply GET_blob_adds
            | apply POST_blob_adds | apply POST_tree_adds | apply POST_commit_adds ]
    | apply keeps_bind; [|intros ?]
    | match goal with
      | |- keeps _ (match ?x with _ => _ end) => destruct x
      end ].
Qed.

End keeps_facts.

(** *** Requests, one at a time *)

Section request_facts.

Variable net : Network.
Variable config : CDNConfig.t.

Lemma request_inr_inv {X} (e : endpoint X) w x w' :
  GithubCDN.request net e w = (inr x, w') ->
  faults net (sent w) = false /\
  e (served net w) = inr (x, remote w') /\
  sent w' = S (sent w) /\ logs w' = logs w.
Proof.
  unfold GithubCDN.request. fold (served net w).
  destruct (faults net (sent w)); [done|].
  destruct (e (served net w)) as [f|[y r']]; [done|].
  by intros [= <- <-].
Qed.

Lemma request_inl_inv {X} (e : endpoint X) w err w' :
  GithubCDN.request net e w = (inl err, w') ->
  w' = mkWorld (served net w) (S (sent w)) (logs w) /\
  (faults net (sent w) = true /\ err = GitHubAPIError Unavailable \/
   faults net (sent w) = false /\
   exists f, e (served net w) = inl f /\ err = GitHubAPIError f).
Proof.
  unfold GithubCDN.request. fold (served net w).
  destruct (faults net (sent w)).
  - intros [= <- <-]. auto.
  - destruct (e (served net w)) as [f|[y r']]; [|done].
    intros [= <- <-]. split; [done|]. right. eauto.
Qed.

Lemma request_fault {X} (e : endpoint X) w :
  faults net (sent w) = true ->
  GithubCDN.request net e w
  = (inl (GitHubAPIError Unavailable), mkWorld (served net w) (S (sent w)) (logs w)).
Proof. intros Hf. unfold GithubCDN.request. by rewrite Hf. Qed.

(** [list] sends one request and never throws. *)
Lemma list_returns w :
  exists assets w',
    GithubCDN.list net config w = (inr assets, w') /\
    sent w' = S (sent w) /\ remote w' = served net w /\ logs w' = logs w.
Proof.
  unfold GithubCDN.list, try_catch. rewrite run_bind.
  destruct (GithubCDN.request net (GET_contents "registry.json") w)
    as [[err|c] w1] eqn:E.
  - apply request_inl_inv in E as [-> _]. by eexists _, _.
  - apply request_inr_inv in E as (_ & Hc & Hs & Hl).
    destruct (GET_contents_adds _ _ _ _ Hc) as [[_ _] _].
    assert (remote w1 = served net w) as Hr.
    { revert Hc. unfold GET_contents, GET_blob.
      repeat case_match; try done; by intros [= _ <-]. }
    rewrite run_bind.
    destruct c as [data|m|assets]; cbn; eexists _, _; repeat split; done.
Qed.



End request_facts.

(** *** Failed uploads (C2) *)

Section failed_uploads.

Variable net : Network.
Variable config : CDNConfig.t.
Hypothesis alone : forall k, others net k = [].




End failed_uploads.





(** *** Listing (C9) *)

Lemma with_links_present config a :
  is_Some (CDNAsset.links a) -> GithubCDN.with_links config a = a.
Proof. destruct a as [? ? ? ? ? ? [l|]]; [done | by intros [? ?]]. Qed.

Lemma list_reads net config w assets r' :
  faults net (sent w) = false ->
  GET_contents "registry.json" (served net w) = inr (RegistryDoc assets, r') ->
  (GithubCDN.list net config w).1 = inr (GithubCDN.with_links config <$> assets).
Proof.
  intros Hf Hc. unfold GithubCDN.list, try_catch, GithubCDN.request.
  rewrite run_bind. fold (served net w). by rewrite Hc, Hf.
Qed.

Lemma with_links_all config assets :
  Forall (fun a => is_Some (CDNAsset.links a)) assets ->
  GithubCDN.with_links config <$> assets = assets.
Proof.
  intros Hlinks. rewrite <- (list_fmap_id assets) at 2. apply list_fmap_ext.
  intros i a Ha. apply with_links_present.
  rewrite Forall_forall in Hlinks. apply Hlinks. by eapply list_elem_of_lookup_2.
Qed.

(** C9.  [list] never throws.  Whatever makes the read of the registry
    document fail (the request fails on the network, the store rejects it
    because the branch, the tree or the [registry.json] entry is missing,
    or what is stored there does not decode to a registry) it returns the
    empty sequence.  When the read succeeds it returns the decoded assets in
    their order, each with its [links] filled in when the stored entry had
    none, and otherwise unchanged. *)
Theorem list_never_throws net config w :
  (exists assets w', GithubCDN.list net config w = (inr assets, w')) /\
  (faults net (sent w) = true ->
   (GithubCDN.list net config w).1 = inr []) /\
  (forall f, GET_contents "registry.json" (served net w) = inl f ->
   (GithubCDN.list net config w).1 = inr []) /\
  (forall c r', GET_contents "registry.json" (served net w) = inr (c, r') ->
   (forall assets, c <> RegistryDoc assets) ->
   (GithubCDN.list net config w).1 = inr []) /\
  (forall assets r',
     faults net (sent w) = false ->
     GET_contents "registry.json" (served net w) = inr (RegistryDoc assets, r') ->
     (GithubCDN.list net config w).1 = inr (GithubCDN.with_links config <$> assets) /\
     CDNAsset.id <$> (GithubCDN.with_links config <$> assets) = CDNAsset.id <$> assets /\
     (Forall (fun a => is_Some (CDNAsset.links a)) assets ->
      (GithubCDN.list net config w).1 = inr assets)).
Proof.
  split; [|split; [|split; [|split]]].
  - destruct (list_returns net config w) as (assets & w' & E & _). eauto.
  - intros Hf. unfold GithubCDN.list, try_catch.
    by rewrite run_bind, request_fault.
  - intros f Hc. unfold GithubCDN.list, try_catch, GithubCDN.request.
    rewrite run_bind. fold (served net w). rewrite Hc.
    by destruct (faults net (sent w)).
  - intros c r' Hc Hnot. unfold GithubCDN.list, try_catch, GithubCDN.request.
    rewrite run_bind. fold (served net w). rewrite Hc.
    destruct (faults net (sent w)); [done|].
    destruct c as [data|m|assets]; [done|done|]. by destruct (Hnot assets).
  - intros assets r' Hf Hc.
    pose proof (list_reads net config w assets r' Hf Hc) as Hlist.
    split; [done|]. split.
    + rewrite <- list_fmap_compose. by apply list_fmap_ext.
    + intros Hlinks. rewrite Hlist. f_equal. by apply with_links_all.
Qed.

Lemma list_never_throws_witness :
  (GithubCDN.list fourth_request_fails example_config
     (mkWorld example_repo 3 [])).1 = inr [] /\
  (GithubCDN.list quiet example_config example_world).1 = inr [].
Proof.
  split.
  - apply (list_never_throws fourth_request_fails example_config
             (mkWorld example_repo 3 [])).
    reflexivity.
  - destruct (list_never_throws quiet example_config example_world)
      as (_ & _ & _ & _ & H).
    destruct (H [] example_repo) as (_ & _ & H'); [reflexivity..|].
    apply H'. constructor.
Defined.

(** *** Stale branch updates (C4) *)

Section stale_updates.

Variable net : Network.
Variable config : CDNConfig.t.

Lemma others_evolve w : evolves (remote w) (served net w).
Proof. apply served_evolves. Qed.

Lemma bind_inr_keeps {A B} (m : M A) (f : A -> M B) w b w' :
  keeps evolves m -> (m ≫= f) w = (inr b, w') ->
  exists a w1, evolves (remote w) (remote w1) /\ f a w1 = (inr b, w').
Proof.
  intros Hm H. apply bind_inr_inv in H as (a & w1 & H1 & H2).
  exists a, w1. split; [by eapply Hm | done].
Qed.

Ltac keeps_evolves :=
  first
    [ apply keeps_onUpdate; apply _
    | apply (keeps_list evolves net others_evolve grows_evolves)
    | apply (keeps_push_chunks evolves net others_evolve grows_evolves)
    | apply (keeps_request evolves net others_evolve grows_evolves);
      first [ apply GET_ref_adds | apply GET_tree_adds | apply GET_blob_adds
            | apply POST_blob_adds | apply POST_tree_adds | apply POST_commit_adds ]
    | match goal with
      | |- keeps _ (match ?x with _ => _ end) => destruct x
      end; first [ apply keeps_ret; apply _ | apply keeps_throw; apply _ ] ].

Ltac skip H E :=
  let a := fresh "a" in let w := fresh "w" in
  apply bind_inr_keeps in H as (a & w & E & H); [cbv beta in H | keeps_evolves].

(** What the steps before the branch update leave behind: a commit, just
    created, whose only parent is the head that the first request read. *)
Lemma upload_stage_commit e name type buffer w asset commit w1 :
  GithubCDN.upload_stage net config e name type buffer w = (inr (asset, commit), w1) ->
  exists base message tree rg,
    head (served net w) = Some base /\
    evolves (served net w) rg /\
    commit = length (objects rg) /\
    remote w1 = mkRepo (objects rg ++ [Commit message tree [base]]) (head rg).
Proof.
  intros H. unfold GithubCDN.upload_stage, GithubCDN.emit_upload in H.
  apply bind_inr_inv in H as ([] & wa & [= <-] & H). cbv beta in H.
  apply bind_inr_inv in H as (base & wb & Href & H). cbv beta in H.
  apply request_inr_inv in Href as (_ & Href & _).
  change (served net _) with (served net w) in Href.
  unfold GET_ref in Href. destruct (head (served net w)) as [h|] eqn:Eh; [|done].
  injection Href as -> Hb.
  skip H E1. skip H E2. skip H E3. skip H E4. skip H E5. skip H E6. skip H E7.
  skip H E8.
  apply bind_inr_inv in H as (c & wh & Hc & H). cbv beta in H.
  injection H as <- <- <-.
  apply request_inr_inv in Hc as (_ & Hc & _).
  apply POST_commit_spec in Hc as [-> Hr].
  eexists base, _, _, (served net _). split; [done|]. split; [|split; [done|exact Hr]].
  rewrite Hb.
  repeat (etrans; [eassumption|]). apply others_evolve.
Qed.

Lemma delete_stage_commit id folderPath w commit w1 :
  GithubCDN.delete_stage net id folderPath w = (inr commit, w1) ->
  exists base message tree rg,
    head (served net w) = Some base /\
    evolves (served net w) rg /\
    commit = length (objects rg) /\
    remote w1 = mkRepo (objects rg ++ [Commit message tree [base]]) (head rg).
Proof.
  intros H. unfold GithubCDN.delete_stage, GithubCDN.emit, parse_registry in H.
  apply bind_inr_inv in H as ([] & wa & [= <-] & H). cbv beta in H.
  apply bind_inr_inv in H as (base & wb & Href & H). cbv beta in H.
  apply request_inr_inv in Href as (_ & Href & _).
  change (served net _) with (served net w) in Href.
  unfold GET_ref in Href. destruct (head (served net w)) as [h|] eqn:Eh; [|done].
  injection Href as -> Hb.
  skip H E1. skip H E2. skip H E3. skip H E4. skip H E5. skip H E6. skip H E7.
  skip H E8. skip H E9.
  apply request_inr_inv in H as (_ & Hc & _).
  apply POST_commit_spec in Hc as [-> Hr].
  eexists base, _, _, (served net _). split; [done|]. split; [|split; [done|exact Hr]].
  rewrite Hb.
  repeat (etrans; [eassumption|]). apply others_evolve.
Qed.

End stale_updates.

(** The store refuses to move the branch to a commit whose parent is no
    longer the head: the new head is not among the commit's ancestors. *)
Lemma stale_update_rejected net r0 base message tree rg commit w1 :
  wf_repo r0 = true ->
  head r0 = Some base ->
  evolves r0 rg ->
  commit = length (objects rg) ->
  remote w1 = mkRepo (objects rg ++ [Commit message tree [base]]) (head rg) ->
  wf_repo (remote w1) = true ->
  head (served net w1) <> head r0 ->
  PATCH_ref commit (served net w1) = inl PublishConflict.
Proof.
  intros Hwf0 Hbase Hev Hc Hr1 Hwf1 Hmoved.
  destruct (Hev Hwf0) as (Hwfg & Hp0 & Hhg).
  destruct (others_evolve net w1 Hwf1) as (Hwfs & Hp1 & Hh1).
  pose proof Hwf0 as [Hhead0 _]%wf_repo_spec.
  pose proof Hwfg as [Hheadg _]%wf_repo_spec.
  pose proof Hwfs as [_ Hobjs]%wf_repo_spec.
  pose proof (is_commit_lt _ _ (Hhead0 _ Hbase)) as Hbase_lt.
  pose proof (prefix_length _ _ Hp0) as Hlen0.
  rewrite Hr1 in Hp1, Hh1. cbn [objects head] in Hp1, Hh1.
  assert (objects (served net w1) !! commit = Some (Commit message tree [base])) as Ec.
  { eapply prefix_lookup_Some; [|exact Hp1]. subst commit. apply list_lookup_middle. done. }
  assert (exists h', head (served net w1) = Some h' /\ h' <> commit /\ (base < h')%nat)
    as (h' & Eh' & Hne & Hlt).
  { destruct Hh1 as [E1|(h' & E1 & _ & L1)].
    - destruct Hhg as [Eg|(hg & Eg & _ & Lg)].
      + exfalso. apply Hmoved. congruence.
      + exists hg. split; [congruence|].
        pose proof (is_commit_lt _ _ (Hheadg _ Eg)). lia.
    - exists h'. split; [done|]. rewrite length_app in L1. cbn in L1. lia. }
  unfold PATCH_ref. rewrite Eh'. unfold is_commit at 1. rewrite Ec.
  unfold fast_forward.
  destruct (length (objects (served net w1))) as [|fuel] eqn:Elen.
  { apply lookup_lt_Some in Ec. lia. }
  cbn [reaches]. rewrite Ec. cbn [existsb].
  rewrite (bool_decide_eq_false_2 _ Hne), orb_false_r. cbn [orb].
  destruct (reaches (objects (served net w1)) fuel h' base) eqn:Er; [|done].
  apply reaches_le in Er; [lia | done].
Qed.

(** C4.  In both mutating pipelines, [upload] and [delete]: on a
    well-formed repository that other clients write to as well, if the
    branch head the final update finds is not the head the first request
    read, and the update request reaches the store, then the update is
    rejected as a publish conflict, the pipeline throws that error, and the
    repository is left as the update found it: its head is still the one
    the other writer put there. *)
Theorem stale_parent_is_a_conflict net config w :
  wf_repo (remote w) = true ->
  (forall e input name type buffer asset commit w1,
     GithubCDN.resolve_input e input w = (inr (name, type, buffer), w) ->
     GithubCDN.upload_stage net config e name type buffer w = (inr (asset, commit), w1) ->
     faults net (sent w1) = false ->
     head (served net w1) <> head (served net w) ->
     GithubCDN.upload net config e input w
     = (inl (GitHubAPIError PublishConflict),
        mkWorld (served net w1) (S (sent w1)) (logs w1))) /\
  (forall id folderPath commit w1,
     GithubCDN.delete_stage net id folderPath w = (inr commit, w1) ->
     faults net (sent w1) = false ->
     head (served net w1) <> head (served net w) ->
     GithubCDN.delete net id folderPath w
     = (inl (GitHubAPIError PublishConflict),
        mkWorld (served net w1) (S (sent w1)) (logs w1))).
Proof.
  intros Hwf.
  pose proof (others_evolve net w Hwf) as (Hwf0 & _ & _).
  split.
  - intros e input name type buffer asset commit w1 Hres Hstage Hserved Hmoved.
    pose proof (keeps_upload_stage evolves net (others_evolve net) grows_evolves
                  config e name type buffer _ _ _ Hstage Hwf) as (Hwf1 & _ & _).
    pose proof Hstage as (base & message & tree & rg & Hbase & Hev & Hc & Hr1)
      %upload_stage_commit.
    pose proof (stale_update_rejected net _ _ _ _ _ _ _ Hwf0 Hbase Hev Hc Hr1 Hwf1 Hmoved)
      as Hpatch.
    unfold GithubCDN.upload. rewrite run_bind, Hres, run_bind, Hstage, run_bind.
    unfold GithubCDN.request. fold (served net w1). by rewrite Hserved, Hpatch.
  - intros id folderPath commit w1 Hstage Hserved Hmoved.
    pose proof (keeps_delete_stage evolves net (others_evolve net) grows_evolves
                  id folderPath _ _ _ Hstage Hwf) as (Hwf1 & _ & _).
    pose proof Hstage as (base & message & tree & rg & Hbase & Hev & Hc & Hr1)
      %delete_stage_commit.
    pose proof (stale_update_rejected net _ _ _ _ _ _ _ Hwf0 Hbase Hev Hc Hr1 Hwf1 Hmoved)
      as Hpatch.
    unfold GithubCDN.delete. rewrite run_bind, Hstage, run_bind.
    unfold GithubCDN.request. fold (served net w1). by rewrite Hserved, Hpatch.
Qed.

Lemma stale_parent_is_a_conflict_witness :
  (GithubCDN.upload rival_publishes example_config example_entropy
     example_input example_world).1 = inl (GitHubAPIError PublishConflict) /\
  (GithubCDN.delete rival_publishes "k3x9q2ab_lr2m0c" "uploads/2026_01/"
     example_world).1 = inl (GitHubAPIError PublishConflict).
Proof.
  destruct (stale_parent_is_a_conflict rival_publishes example_config example_world)
    as [Hupload Hdelete]; [reflexivity|].
  split.
  - erewrite Hupload; [reflexivity|reflexivity|vm_compute; reflexivity|reflexivity|].
    vm_compute. discriminate.
  - erewrite Hdelete; [reflexivity|vm_compute; reflexivity|reflexivity|].
    vm_compute. discriminate.
Defined.

(** *** Purge (C7) *)

Section paths.

Lemma startsWith_app s rest p :
  startsWith s p = true -> startsWith (s +:+ rest) p = true.
Proof.
  revert s. induction p as [|c p IH]; intros s; [done|].
  destruct s as [|d s]; [done|].
  change (String d s +:+ rest) with (String d (s +:+ rest)). cbn [startsWith].
  rewrite !andb_true_iff. intros [Hc Hs]. split; [done | by apply IH].
Qed.

Lemma dirs_of_prefix d p : d ∈ dirs_of p -> exists rest, p = d +:+ rest.
Proof.
  revert d. induction p as [|c p IH]; intros d; cbn [dirs_of].
  - intros H. by apply elem_of_nil in H.
  - rewrite elem_of_app, list_elem_of_fmap. intros [H|(d' & -> & H)].
    + case_bool_decide; [|by apply elem_of_nil in H].
      apply list_elem_of_singleton in H as ->. by exists (String c p).
    + apply IH in H as [rest ->]. by exists rest.
Qed.

(** A directory is under a prefix only if what it holds is. *)
Lemma dirs_of_startsWith d p f :
  d ∈ dirs_of p -> startsWith d f = true -> startsWith p f = true.
Proof. intros [rest ->]%dirs_of_prefix. apply startsWith_app. Qed.

End paths.

Section purge.

Variable net : Network.

Lemma others_extend w : extends (remote w) (served net w).
Proof. apply served_evolves. Qed.

Lemma request_extends {X} (e : endpoint X) w x w' :
  adds_objects e ->
  GithubCDN.request net e w = (inr x, w') ->
  e (served net w) = inr (x, remote w') /\
  extends (remote w) (served net w) /\ extends (served net w) (remote w').
Proof.
  intros He H. apply request_inr_inv in H as (_ & H & _).
  split; [done|]. split; [apply others_extend|].
  destruct (He _ _ _ H) as [Hg _]. by apply grows_extends.
Qed.

Lemma listing_outside self entries folderPath i :
  i ∈ listing self entries ->
  (forall en, en ∈ entries -> startsWith (BlobEntry.path en) folderPath = false) ->
  startsWith (TreeItem.path i) folderPath = false.
Proof.
  unfold listing. rewrite elem_of_app, !list_elem_of_fmap.
  intros [(en & -> & Hen)|(d & -> & Hd)] Hout; [by apply Hout|].
  apply elem_of_remove_dups, list_elem_of_join in Hd as (ds & Hd & Hds).
  apply list_elem_of_fmap in Hds as (p & -> & Hp).
  apply list_elem_of_fmap in Hp as (en & -> & Hen).
  cbn. destruct (startsWith d folderPath) eqn:E; [|done].
  rewrite <- (Hout en Hen). symmetry. by eapply dirs_of_startsWith.
Qed.

End purge.

Lemma tree_entries_self r s entries :
  tree_entries r s = Some entries ->
  objects r !! tree_id r s = Some (Tree entries).
Proof.
  unfold tree_entries, tree_id.
  destruct (objects r !! s) as [[c|es|m t ps]|] eqn:Es; try done.
  - by intros [= <-].
  - destruct (objects r !! t) as [[c|es|m' t' ps']|] eqn:Et; try done.
    by intros [= <-].
Qed.

Lemma put_object_lookup r o :
  objects (put_object r o).2 !! (put_object r o).1 = Some o.
Proof. cbn. by apply list_lookup_middle. Qed.

Lemma POST_blob_spec c r x r' :
  POST_blob c r = inr (x, r') -> objects r' !! x = Some (Blob c).
Proof. intros [= <- <-]. apply put_object_lookup. Qed.

Lemma POST_tree_None_spec items r x r' :
  POST_tree None items r = inr (x, r') ->
  objects r' !! x = Some (Tree (as_entry <$> items)).
Proof.
  unfold POST_tree. destruct (forallb _ _); [|done].
  intros [= <- <-]. apply put_object_lookup.
Qed.

Lemma POST_commit_lookup m t ps r x r' :
  POST_commit m t ps r = inr (x, r') -> objects r' !! x = Some (Commit m t ps).
Proof.
  intros [-> ->]%POST_commit_spec. cbn. by apply list_lookup_middle.
Qed.

(** What the steps of [delete] before the branch update have written when
    they return: the patched registry, the filtered tree and the commit,
    all still there in any later state of the repository. *)
Lemma delete_stage_writes net id folderPath w commit w1 :
  GithubCDN.delete_stage net id folderPath w = (inr commit, w1) ->
  exists self entries regNode registry newReg newTree message parents,
    let filtered := GithubCDN.outside folderPath (listing self entries) in
    List.find (fun i => bool_decide (TreeItem.path i = "registry.json")) filtered
      = Some regNode /\
    TreeItem.type regNode = ItemType.blob /\
    objects (remote w1) !! newReg
      = Some (Blob (RegistryDoc (GithubCDN.without_asset id registry))) /\
    objects (remote w1) !! newTree
      = Some (Tree (as_entry <$> GithubCDN.finalTree newReg filtered)) /\
    objects (remote w1) !! commit = Some (Commit message newTree parents).
Proof.
  intros H. unfold GithubCDN.delete_stage, GithubCDN.emit in H.
  apply bind_inr_inv in H as ([] & wa & [= <-] & H). cbv beta in H.
  apply bind_inr_inv in H as (headSha & wb & _ & H). cbv beta in H.
  apply bind_inr_inv in H as ([] & wc & [= <-] & H). cbv beta in H.
  apply bind_inr_inv in H as (treeData & wd & Htree & H). cbv beta zeta in H.
  apply (request_extends net _ _ _ _ (GET_tree_adds _)) in Htree as (Htree & _ & Xd).
  set (rd := served net _) in Htree, Xd.
  apply bind_inr_inv in H as ([] & we & [= <-] & H). cbv beta in H.
  apply bind_inr_inv in H as (regNode & wf & Hfind & H). cbv beta in H.
  destruct (List.find _ _) as [i|] eqn:Efind in Hfind; [|done].
  injection Hfind as -> <-.
  apply bind_inr_inv in H as (regBlob & wg & Hblob & H). cbv beta in H.
  apply (request_extends net _ _ _ _ (GET_blob_adds _)) in Hblob as (Hblob & Xg1 & Xg2).
  set (rg := served net _) in Hblob, Xg1, Xg2. cbn [remote] in Xg1.
  apply bind_inr_inv in H as (registry & wh & Hparse & H). cbv beta zeta in H.
  destruct regBlob as [data|m|assets]; [done|done|]. injection Hparse as -> <-.
  apply bind_inr_inv in H as (newReg & wi & Hreg & H). cbv beta in H.
  apply (request_extends net _ _ _ _ (POST_blob_adds _)) in Hreg as (Hreg & _ & _).
  apply POST_blob_spec in Hreg.
  apply bind_inr_inv in H as ([] & wj & [= <-] & H). cbv beta in H.
  apply bind_inr_inv in H as (newTree & wk & Hnew & H). cbv beta in H.
  apply (request_extends net _ _ _ _ (POST_tree_adds _ _)) in Hnew as (Hnew & Xk1 & Xk2).
  apply POST_tree_None_spec in Hnew. cbn [remote] in Xk1.
  apply (request_extends net _ _ _ _ (POST_commit_adds _ _ _)) in H as (Hcommit & Xl1 & Xl2).
  apply POST_commit_lookup in Hcommit.
  unfold GET_tree in Htree.
  destruct (tree_entries rd headSha) as [entries|] eqn:Eentries; [|done].
  injection Htree as <- Hd.
  exists (tree_id rd headSha), entries, regNode, registry, newReg, newTree.
  eexists _, _. cbv zeta. split; [exact Efind|]. split; [|split; [|split]].
  - apply find_some in Efind as [Hin _].
    apply filter_In in Hin as [Hin _]. apply list_elem_of_In in Hin.
    unfold listing in Hin. apply elem_of_app in Hin as [Hin|Hin].
    + apply list_elem_of_fmap in Hin as (en & -> & _). done.
    + apply list_elem_of_fmap in Hin as (d & -> & _). exfalso.
      apply tree_entries_self in Eentries.
      assert (objects rg !! tree_id rd headSha = Some (Tree entries)) as Eg.
      { eapply prefix_lookup_Some; [exact Eentries|]. rewrite Hd. exact Xg1. }
      unfold GET_blob in Hblob. cbn [TreeItem.sha] in Hblob. by rewrite Eg in Hblob.
  - eapply prefix_lookup_Some; [exact Hreg|].
    etrans; [exact Xk1|]. etrans; [exact Xk2|]. etrans; [exact Xl1 | exact Xl2].
  - eapply prefix_lookup_Some; [exact Hnew|]. etrans; [exact Xl1 | exact Xl2].
  - done.
Qed.

(** In the tree [delete] writes, [registry.json] points to the patched
    registry. *)
Lemma finalTree_registry newReg filtered regNode :
  regNode ∈ filtered ->
  TreeItem.path regNode = "registry.json" ->
  TreeItem.type regNode = ItemType.blob ->
  exists en,
    List.find (fun e => bool_decide (BlobEntry.path e = "registry.json"))
      (as_entry <$> GithubCDN.finalTree newReg filtered) = Some en /\
    BlobEntry.sha en = newReg.
Proof.
  intros Hin Hpath Htype. unfold GithubCDN.finalTree.
  assert (regNode ∈ List.filter
            (fun i => bool_decide (TreeItem.type i = ItemType.blob)) filtered) as Hl.
  { apply list_elem_of_In, filter_In. split; [by apply list_elem_of_In|].
    by apply bool_decide_eq_true. }
  revert Hl. generalize (List.filter
    (fun i => bool_decide (TreeItem.type i = ItemType.blob)) filtered) as l.
  induction l as [|i l IH]; intros Hl; [by apply elem_of_nil in Hl|].
  cbn [fmap list_fmap List.find].
  destruct (decide (TreeItem.path i = "registry.json")) as [Ei|Ei].
  - rewrite (bool_decide_eq_true_2 _ Ei). cbn.
    rewrite (bool_decide_eq_true_2 _ Ei). eauto.
  - rewrite (bool_decide_eq_false_2 _ Ei). cbn.
    rewrite (bool_decide_eq_false_2 _ Ei).
    apply elem_of_cons in Hl as [->|Hl]; [done|]. by apply IH.
Qed.

(** C7.  After every successful [delete(id, folderPath)], on any network:
    the branch head is the new commit, the recursive listing of its tree has
    no entry whose path starts with [folderPath], and the registry stored
    at [registry.json] in that tree has no entry whose id is [id]. *)
Theorem delete_purges net id folderPath w w' :
  GithubCDN.delete net id folderPath w = (inr true, w') ->
  exists commit items registry,
    head (remote w') = Some commit /\
    GET_tree commit (remote w') = inr (items, remote w') /\
    head_listing (remote w') = items /\
    Forall (fun i => startsWith (TreeItem.path i) folderPath = false) items /\
    GET_contents "registry.json" (remote w') = inr (RegistryDoc registry, remote w') /\
    Forall (fun a => CDNAsset.id a <> id) registry.
Proof.
  intros H. unfold GithubCDN.delete in H.
  apply bind_inr_inv in H as (commit & w1 & Hstage & H). cbv beta in H.
  apply bind_inr_inv in H as ([] & w2 & Hpatch & H). cbv beta in H.
  assert (remote w' = remote w2) as Hw'.
  { unfold GithubCDN.emit, onUpdate in H. cbn in H. by injection H as <-. }
  apply request_inr_inv in Hpatch as (_ & Hpatch & _).
  apply PATCH_ref_spec in Hpatch as (Hr2 & _ & _).
  pose proof (others_extend net w1) as X1.
  apply delete_stage_writes in Hstage
    as (self & entries & regNode & registry & newReg & newTree & message & parents
        & Hfind & Htype & Ereg & Etree & Ecommit).
  cbv zeta in Hfind, Etree.
  set (filtered := GithubCDN.outside folderPath (listing self entries)) in *.
  apply (prefix_lookup_Some _ _ _ _ Ereg) in X1 as Ereg'.
  apply (prefix_lookup_Some _ _ _ _ Etree) in X1 as Etree'.
  apply (prefix_lookup_Some _ _ _ _ Ecommit) in X1 as Ecommit'.
  rewrite Hw', Hr2.
  set (R := mkRepo (objects (served net w1)) (Some commit)).
  assert (tree_entries R commit
          = Some (as_entry <$> GithubCDN.finalTree newReg filtered)) as Hentries.
  { unfold tree_entries. cbn [R objects]. by rewrite Ecommit', Etree'. }
  assert (GET_tree commit R
          = inr (listing newTree (as_entry <$> GithubCDN.finalTree newReg filtered), R))
    as Htree.
  { unfold GET_tree, tree_id. rewrite Hentries. cbn [R objects]. by rewrite Ecommit'. }
  apply find_some in Hfind as [Hin Hpath%bool_decide_eq_true].
  apply list_elem_of_In in Hin.
  destruct (finalTree_registry newReg filtered regNode Hin Hpath Htype)
    as (en & Hen & Hsha).
  eexists commit, _, (GithubCDN.without_asset id registry).
  split; [done|]. split; [exact Htree|]. split; [|split; [|split]].
  - unfold head_listing. cbn [R head]. by rewrite Htree.
  - apply Forall_forall. intros i Hi.
    apply (listing_outside _ _ _ _ Hi). intros e He.
    apply list_elem_of_fmap in He as (j & -> & Hj).
    unfold GithubCDN.finalTree in Hj.
    apply list_elem_of_fmap in Hj as (k & -> & Hk).
    apply list_elem_of_In, filter_In in Hk as [Hk _].
    apply filter_In in Hk as [_ Hk]. apply negb_true_iff in Hk.
    by destruct (bool_decide (TreeItem.path k = "registry.json")).
  - unfold GET_contents. cbn [R head]. rewrite Hentries, Hen, Hsha.
    unfold GET_blob. cbn [R objects]. by rewrite Ereg'.
  - apply Forall_forall. intros a Ha.
    apply list_elem_of_In, filter_In in Ha as [_ Ha].
    apply negb_true_iff in Ha. by apply bool_decide_eq_false in Ha.
Qed.

Lemma delete_purges_witness :
  let w' := (GithubCDN.delete quiet "k3x9q2ab_lr2m0c" "uploads/" example_uploaded).2 in
  exists commit items registry,
    head (remote w') = Some commit /\
    GET_tree commit (remote w') = inr (items, remote w') /\
    Forall (fun i => startsWith (TreeItem.path i) "uploads/" = false) items /\
    GET_contents "registry.json" (remote w') = inr (RegistryDoc registry, remote w') /\
    Forall (fun a => CDNAsset.id a <> "k3x9q2ab_lr2m0c") registry.
Proof.
  intros w'.
  destruct (delete_purges quiet "k3x9q2ab_lr2m0c" "uploads/" example_uploaded w')
    as (commit & items & registry & Hh & Ht & _ & Hi & Hr & Ha).
  - vm_compute. reflexivity.
  - exists commit, items, registry. repeat split; assumption.
Defined.

(** *** Recovery (C8) *)

Section recovery.

Variable config : CDNConfig.t.





End recovery.



(** *** Reconstruction (C1, C3, C5) *)

Section reconstruction.

Variable primary secondary : Mirror.
Variable manifest : CDNManifest.t.
Variable body : Z -> bytes.

Let n := CDNManifest.totalChunks manifest.

Hypothesis served_bodies :
  forall i, 1 <= i <= n -> Fetch.get primary secondary i = inr (body i).

Lemma seqZ_snoc (k : Z) : 1 <= k -> seqZ 1 (k - 1) ++ [k] = seqZ 1 k.
Proof.
  intros Hk. replace k with ((k - 1) + 1) at 3 by lia.
  rewrite seqZ_app by lia. f_equal.
  rewrite seqZ_cons by lia. rewrite seqZ_nil by lia. f_equal. lia.
Qed.

(** The drain loop stops only when the next chunk is not held, and emits
    the held chunks in index order on its way. *)
Lemma drain_draining limit ws fuel m k out m' k' out' :
  draining body limit ws m k out ->
  (size m <= fuel)%nat ->
  drain fuel m k out = (m', k', out') ->
  draining body limit ws m' k' out' /\ m' !! k' = None.
Proof.
  revert m k out. induction fuel as [|fuel IH]; intros m k out Hd Hsize; cbn [drain].
  - intros [= <- <- <-]. split; [done|].
    assert (m = ∅) as -> by (apply map_size_empty_inv; lia). apply lookup_empty.
  - destruct (m !! k) as [b|] eqn:Ek; [|by intros [= <- <- <-]].
    apply IH.
    + destruct Hd as (Hout & Hk & Hws & Hm & Hcov).
      destruct (Hm k b Ek) as (Hkl & Hkw & ->).
      split; [|split; [lia|split; [|split]]].
      * replace (k + 1 - 1) with k by lia.
        rewrite Hout, <- (seqZ_snoc k) by lia. by rewrite fmap_app.
      * intros j Hj. destruct (decide (j = k)) as [->|]; [done|].
        specialize (Hws j Hj). lia.
      * intros j c [Hne Hj]%lookup_delete_Some.
        destruct (Hm j c Hj) as (? & ? & ?). split; [lia|done].
      * intros j Hj. destruct (Hcov j ltac:(lia)) as [?|Hs]; [by left|right].
        apply lookup_delete_is_Some. split; [lia|done].
    + rewrite map_size_delete, Ek. cbn. lia.
Qed.

Lemma elem_of_drop_worker j k ws :
  k ∈ Fetch.drop_worker j ws <-> k ∈ ws /\ k <> j.
Proof.
  unfold Fetch.drop_worker. rewrite !list_elem_of_In, filter_In.
  rewrite negb_true_iff, bool_decide_eq_false. done.
Qed.

(** Every step keeps the emission in order. *)
Lemma step_in_order ev s s' :
  in_order body n s ->
  Fetch.step primary secondary manifest ev s = Some s' ->
  in_order body n s'.
Proof.
  intros (Herr & Hnext & Hcur & Hout & Hws & Hm & Hcov & Hclosed).
  destruct ev as [|j|]; cbn [Fetch.step].
  - destruct (bool_decide (stream s = Readable)) eqn:Er; [|done].
    destruct (bool_decide (cursor s <= _)) eqn:Ec; [|done].
    destruct (bool_decide (_ < 10)%nat) eqn:Ew; [|done].
    apply bool_decide_eq_true in Er, Ec. fold n in Ec.
    intros [= <-]. unfold in_order.
    cbn [chunkMap next workers cursor enqueued stream].
    split; [done|]. split; [lia|]. split; [lia|]. split; [done|].
    split; [|split; [|split]].
    + intros k [Hk| ->%list_elem_of_singleton]%elem_of_app; [specialize (Hws k Hk)|]; lia.
    + intros k b Hk. destruct (Hm k b Hk) as (? & ? & ?).
      split; [lia|]. split; [|done].
      intros [?| ->%list_elem_of_singleton]%elem_of_app; [done|lia].
    + intros k Hk. destruct (decide (k = cursor s)) as [->|].
      * left. apply elem_of_app. right. by apply list_elem_of_singleton.
      * destruct (Hcov k ltac:(lia)); [left|by right]. apply elem_of_app. by left.
    + congruence.
  - destruct (bool_decide (j ∈ workers s)) eqn:Ej; [|done].
    apply bool_decide_eq_true in Ej. specialize (Hws j Ej) as Hj.
    rewrite served_bodies by lia.
    destruct (bool_decide (stream s = Readable)) eqn:Er.
    + destruct (drain _ _ _ _) as [[m' k'] out'] eqn:Ed. intros [= <-]. unfold in_order.
    cbn [chunkMap next workers cursor enqueued stream].
      apply drain_draining with (limit := cursor s)
        (ws := Fetch.drop_worker j (workers s)) in Ed as [Hd Hnone]; [|..|done].
      * destruct Hd as (Hout' & Hk' & Hws' & Hm' & Hcov').
        split; [done|]. split; [lia|]. split; [done|]. split; [done|].
        split; [done|]. split; [|split; [done|]].
        -- intros k b Hk. destruct (Hm' k b Hk) as (? & ? & ?).
           split; [|done]. assert (k <> k') by congruence. lia.
        -- apply bool_decide_eq_true in Er. congruence.
      * split; [done|]. split; [lia|]. split; [|split].
        -- intros k [Hk _]%elem_of_drop_worker. by apply Hws.
        -- intros k b [[<- <-]|[Hne Hk]]%lookup_insert_Some.
           ++ split; [lia|]. split; [|done]. rewrite elem_of_drop_worker. tauto.
           ++ destruct (Hm k b Hk) as (? & ? & ?). split; [lia|]. split; [|done].
              rewrite elem_of_drop_worker. tauto.
        -- intros k Hk. destruct (decide (k = j)) as [->|].
           ++ right. apply lookup_insert_is_Some. by left.
           ++ destruct (Hcov k Hk) as [?|?].
              ** left. by apply elem_of_drop_worker.
              ** right. apply lookup_insert_is_Some. right. by split.
    + apply bool_decide_eq_false in Er.
      assert (stream s = Closed) as Hc by (by destruct (stream s)).
      specialize (Hclosed Hc). lia.
  - destruct (bool_decide (stream s = Readable)) eqn:Er; [|done].
    destruct (bool_decide (_ < cursor s)) eqn:Ec; [|done].
    destruct (bool_decide (workers s = [])) eqn:Ew; [|done].
    apply bool_decide_eq_true in Ec, Ew. fold n in Ec.
    intros [= <-]. unfold in_order.
    cbn [chunkMap next workers cursor enqueued stream].
    split; [done|]. split; [done|]. split; [done|]. split; [done|].
    split; [done|]. split; [done|]. split; [done|]. intros _.
    destruct (decide (next s = cursor s)) as [?|Hne]; [lia|].
    destruct (Hcov (next s) ltac:(lia)) as [Hin|[b Hb]].
    + rewrite Ew in Hin. by apply elem_of_nil in Hin.
    + destruct (Hm _ _ Hb). lia.
Qed.

Lemma start_in_order : 0 <= n -> in_order body n Fetch.start.
Proof.
  intros Hn. unfold Fetch.start, in_order.
  cbn [chunkMap next workers cursor enqueued stream]. split; [done|].
  split; [lia|]. split; [lia|]. split; [done|].
  split; [intros j Hj; by apply elem_of_nil in Hj|].
  split; [intros j b Hj; by rewrite lookup_empty in Hj|].
  split; [intros j Hj; lia|done].
Qed.

Lemma run_in_order schedule s s' :
  in_order body n s ->
  Fetch.run primary secondary manifest schedule s = Some s' ->
  in_order body n s'.
Proof.
  revert s. induction schedule as [|ev rest IH]; intros s Hs; cbn [Fetch.run].
  - by intros [= <-].
  - destruct (Fetch.step _ _ _ ev s) as [s1|] eqn:E; [|done].
    apply IH. by eapply step_in_order.
Qed.

End reconstruction.

Section reconstruction_runs.

Variable primary secondary : Mirror.
Variable manifest : CDNManifest.t.

Let n := CDNManifest.totalChunks manifest.


Lemma drop_worker_length j ws :
  j ∈ ws -> (length (Fetch.drop_worker j ws) < length ws)%nat.
Proof.
  unfold Fetch.drop_worker. induction ws as [|k ws IH]; intros Hj.
  - by apply elem_of_nil in Hj.
  - cbn [List.filter]. destruct (decide (k = j)) as [->|Hne].
    + rewrite bool_decide_eq_true_2 by done. cbn.
      pose proof (filter_length_le (fun k => negb (bool_decide (k = j))) ws). lia.
    + rewrite bool_decide_eq_false_2 by done. cbn.
      apply elem_of_cons in Hj as [->|Hj]; [done|]. apply IH in Hj. lia.
Qed.



(** At most ten downloads are in flight at any time. *)
Lemma step_window ev s s' :
  (length (workers s) <= 10)%nat ->
  Fetch.step primary secondary manifest ev s = Some s' ->
  (length (workers s') <= 10)%nat.
Proof.
  intros Hw. destruct ev as [|j|]; cbn [Fetch.step].
  - destruct (bool_decide (stream s = Readable)); [|done].
    destruct (bool_decide (cursor s <= _)); [|done].
    destruct (bool_decide (_ < 10)%nat) eqn:Ew; [|done].
    apply bool_decide_eq_true in Ew.
    intros [= <-]. cbn [workers]. rewrite length_app. cbn. lia.
  - destruct (bool_decide (j ∈ workers s)) eqn:Ej; [|done].
    apply bool_decide_eq_true, drop_worker_length in Ej.
    destruct (Fetch.get primary secondary j) as [e|b].
    + intros [= <-]. cbn [workers]. lia.
    + destruct (bool_decide (stream s = Readable)).
      * destruct (drain _ _ _ _) as [[m' k'] out']. intros [= <-]. cbn [workers]. lia.
      * intros [= <-]. cbn [workers]. lia.
  - repeat (destruct (bool_decide _); [|done]). by intros [= <-].
Qed.

End reconstruction_runs.

Lemma take_seqZ m k len : 0 <= k <= len -> take (Z.to_nat k) (seqZ m len) = seqZ m k.
Proof.
  intros Hk. replace len with (k + (len - k)) by lia.
  rewrite seqZ_app by lia. apply take_app_length'. by rewrite length_seqZ.
Qed.

(** A reconstruction whose mirrors serve the chunks of [buffer] has emitted
    the first [next - 1] of them, and all of them once it is closed. *)
Lemma emitted_prefix primary secondary buffer manifest schedule s :
  CDNManifest.totalChunks manifest = totalChunks_of (byteLength buffer) ->
  serves_chunks primary secondary buffer ->
  Fetch.run primary secondary manifest schedule Fetch.start = Some s ->
  stream s <> Errored /\
  enqueued s = take (Z.to_nat (next s - 1)) (chunks_of buffer) /\
  (stream s = Closed -> next s = totalChunks_of (byteLength buffer) + 1).
Proof.
  intros Hn Hserved Hrun.
  destruct (totalChunks_spec buffer) as (Hpos & _). cbv zeta in Hpos.
  set (body := fun i => chunk_at buffer (i - 1)).
  assert (forall k, body <$> seqZ 1 k = chunk_at buffer <$> seqZ 0 k) as Hbody.
  { intros k. rewrite <- (fmap_add_seqZ 1 0), <- list_fmap_compose.
    apply list_fmap_ext. intros i x _. unfold body. cbn. f_equal. lia. }
  assert (in_order body (CDNManifest.totalChunks manifest) s)
    as (Herr & Hnext & Hcur & Hout & _ & _ & _ & Hclosed).
  { eapply run_in_order; [|apply start_in_order; lia|exact Hrun].
    intros i Hi. apply Hserved. lia. }
  rewrite Hn in Hcur, Hclosed.
  split; [done|]. split; [|done].
  unfold chunks_of. rewrite <- fmap_take, take_seqZ by lia. by rewrite Hout, Hbody.
Qed.





(** The scenario of the specification: fragments 2, 1, 3 arrive in that
    order and are emitted in the order 1, 2, 3. *)
Example arrival_2_1_3_emits_1_2_3 :
  enqueued <$> Fetch.run one_byte_mirror one_byte_mirror (manifest_of_chunks 3)
    [Launch; Launch; Launch; Settle 2; Settle 1; Settle 3; Finish] Fetch.start
  = Some [[x01]; [x02]; [x03]]%byte.
Proof. vm_compute. reflexivity. Qed.

(** *** Where the reconstruction breaks its contract (C3, C5) *)

(** C5 fails on the code.  The window bounds the downloads in flight, not
    the holding map: a download that has settled leaves [workers] whether
    or not its chunk could be emitted.  With twelve chunks and a slow first
    one, the map holds chunks 2 to 12, eleven entries, while one download is
    in flight and nothing has been emitted. *)
Lemma holding_map_outgrows_window :
  exists s,
    Fetch.run one_byte_mirror one_byte_mirror (manifest_of_chunks 12)
      slow_first_chunk Fetch.start = Some s /\
    size (chunkMap s) = 11%nat /\
    workers s = [1] /\
    enqueued s = [] /\
    stream s = Readable.
Proof. eexists. split; [vm_compute; reflexivity|]. vm_compute. done. Qed.

(** C3 fails on the code.  [get] tests [ok] on the primary mirror's answer
    only (as [getManifest]'s caller does for the manifest): when both
    mirrors answer a chunk request with an error status, the body of the
    secondary mirror's error response is emitted as the chunk and the
    stream closes normally. *)
Lemma error_body_is_emitted :
  Fetch.get not_found_mirror not_found_mirror 1 = inr not_found_body /\
  exists s,
    Fetch.run not_found_mirror not_found_mirror (manifest_of_chunks 1)
      [Launch; Settle 1; Finish] Fetch.start = Some s /\
    stream s = Closed /\
    enqueued s = [not_found_body].
Proof. split; [reflexivity|]. eexists. split; [vm_compute; reflexivity|]. done. Qed.

(** What the code does do: a chunk request that the secondary mirror
    rejects (no response at all) errors the stream, and an errored stream
    emits nothing more. *)
Lemma rejected_download_errors_stream primary secondary manifest j e s s' :
  Fetch.get primary secondary j = inl e ->
  stream s = Readable ->
  Fetch.step primary secondary manifest (Settle j) s = Some s' ->
  stream s' = Errored /\ enqueued s' = enqueued s.
Proof.
  intros Hget Hr. cbn [Fetch.step]. rewrite Hget, Hr.
  destruct (bool_decide _); [|done]. by intros [= <-].
Qed.

Lemma errored_stream_emits_nothing primary secondary manifest ev s s' :
  stream s = Errored ->
  Fetch.step primary secondary manifest ev s = Some s' ->
  stream s' = Errored /\ enqueued s' = enqueued s.
Proof.
  intros He. destruct ev as [|j|]; cbn [Fetch.step]; rewrite He.
  - by rewrite bool_decide_eq_false_2.
  - destruct (bool_decide (j ∈ _)); [|done].
    rewrite (bool_decide_eq_false_2 (Errored = Readable)) by done.
    destruct (Fetch.get primary secondary j); by intros [= <-].
  - by rewrite bool_decide_eq_false_2.
Qed.

(** *** Upload, then fetch *)

Section round_trip.

Variable config : CDNConfig.t.

Lemma POST_blob_quiet c w x w' :
  GithubCDN.request quiet (POST_blob c) w = (inr x, w') ->
  x = length (objects (remote w)) /\
  remote w' = mkRepo (objects (remote w) ++ [Blob c]) (head (remote w)).
Proof. rewrite request_quiet. cbn. by intros [= <- <-]. Qed.

Lemma POST_tree_quiet base items w x w' :
  GithubCDN.request quiet (POST_tree (Some base) items) w = (inr x, w') ->
  exists entries,
    tree_entries (remote w) base = Some entries /\
    x = length (objects (remote w)) /\
    remote w' = mkRepo (objects (remote w) ++ [Tree (overlay entries items)])
                  (head (remote w)).
Proof.
  rewrite request_quiet. unfold POST_tree.
  destruct (forallb _ _); [|done].
  destruct (tree_entries (remote w) base) as [entries|]; [|done].
  cbn. intros [= <- <-]. eauto.
Qed.

Lemma POST_commit_quiet m t ps w x w' :
  GithubCDN.request quiet (POST_commit m t ps) w = (inr x, w') ->
  x = length (objects (remote w)) /\
  remote w' = mkRepo (objects (remote w) ++ [Commit m t ps]) (head (remote w)).
Proof.
  rewrite request_quiet.
  destruct (POST_commit m t ps (remote w)) as [f|[y r']] eqn:E; [done|].
  apply POST_commit_spec in E as [-> ->]. by intros [= <- <-].
Qed.

Lemma PATCH_ref_quiet c w x w' :
  GithubCDN.request quiet (PATCH_ref c) w = (inr x, w') ->
  remote w' = mkRepo (objects (remote w)) (Some c).
Proof.
  rewrite request_quiet.
  destruct (PATCH_ref c (remote w)) as [f|[y r']] eqn:E; [done|].
  apply PATCH_ref_spec in E as (-> & _). by intros [= _ <-].
Qed.

(** What a successful upload on a quiet network leaves in the repository. *)
Lemma upload_stage_quiet_writes e name type buffer w asset commit w1 :
  GithubCDN.upload_stage quiet config e name type buffer w = (inr (asset, commit), w1) ->
  let n := totalChunks_of (byteLength buffer) in
  let first := length (objects (remote w)) in
  let mBlob := (first + Z.to_nat n)%nat in
  exists base entries registry,
    asset = GithubCDN.upload_asset config e name type buffer /\
    commit = (mBlob + 3)%nat /\
    objects (remote w1) =
      objects (remote w) ++
      ((fun i => Blob (Raw (chunk_at buffer i))) <$> seqZ 0 n) ++
      [Blob (ManifestDoc (GithubCDN.upload_manifest e name type buffer));
       Blob (RegistryDoc registry);
       Tree (overlay entries
               (upload_items (GithubCDN.upload_path e name) n first mBlob (mBlob + 1)));
       Commit ("CDN Upload: " +:+ name) (mBlob + 2)%nat [base]].
Proof.
  intros H n first mBlob. unfold GithubCDN.upload_stage in H. fold n in H.
  apply bind_inr_inv in H as ([] & wa & [= <-] & H). cbv beta in H.
  apply bind_inr_inv in H as (base & wb & Href & H). cbv beta in H.
  rewrite request_quiet in Href. cbn [remote] in Href. unfold GET_ref in Href.
  destruct (head (remote w)) as [h|] eqn:Eh; [|done]. injection Href as -> <-.
  apply bind_inr_inv in H as (items & wc & Hpush & H). cbv beta in H.
  rewrite push_chunks_quiet in Hpush. cbn [remote sent logs app] in Hpush.
  injection Hpush as <- <-.
  apply bind_inr_inv in H as ([] & wd & [= <-] & H). cbv beta in H.
  apply bind_inr_inv in H as (mB & we & Hm & H). cbv beta in H.
  apply POST_blob_quiet in Hm as [-> Hre]. cbn [remote objects head] in Hre.
  apply bind_inr_inv in H as ([] & wf & [= <-] & H). cbv beta in H.
  apply bind_inr_inv in H as (registry & wg & Hlist & H). cbv beta zeta in H.
  match type of Hlist with
  | GithubCDN.list _ _ ?w0 = _ =>
      destruct (list_returns quiet config w0) as (assets & wg' & Hl & _ & Hrg & _);
      rewrite Hl in Hlist; injection Hlist as <- <-;
      change (served quiet w0) with (remote we) in Hrg
  end.
  apply bind_inr_inv in H as (rB & wh & Hr & H). cbv beta in H.
  apply POST_blob_quiet in Hr as [-> Hrh].
  apply bind_inr_inv in H as ([] & wi & [= <-] & H). cbv beta in H.
  apply bind_inr_inv in H as (tree & wj & Ht & H). cbv beta in H.
  apply POST_tree_quiet in Ht as (entries & _ & -> & Hrj). cbn [remote] in Hrj.
  apply bind_inr_inv in H as (c & wk & Hc & H). cbv beta in H.
  apply POST_commit_quiet in Hc as [-> Hrk].
  injection H as <- <- <-.
  exists base, entries, (GithubCDN.upload_asset config e name type buffer :: assets).
  split; [done|].
  destruct we as [re ? ?], wg' as [rg ? ?], wh as [rh ? ?], wj as [rj ? ?],
    wk as [rk ? ?].
  cbn [remote objects head] in *. subst rk rj rh rg re. cbn [objects head].
  rewrite !length_app, length_fmap, length_seqZ. cbn [length].
  split; [fold first; unfold mBlob; lia|].
  rewrite <- !app_assoc. cbn [app]. unfold upload_items, mBlob, first.
  by replace (length (objects (remote w)) + Z.to_nat n + 1 + 1)%nat
    with (length (objects (remote w)) + Z.to_nat n + 2)%nat by lia.
Qed.

Lemma chunk_path_inj path i j :
  path +:+ "/chunk_" +:+ pretty (i + 1) = path +:+ "/chunk_" +:+ pretty (j + 1) ->
  i = j.
Proof.
  intros H. apply (inj (String.app path)), (inj (String.app "/chunk_")) in H.
  apply (inj pretty) in H. lia.
Qed.

Lemma find_app {A} (P : A -> bool) l1 l2 :
  List.find P (l1 ++ l2)
  = match List.find P l1 with Some x => Some x | None => List.find P l2 end.
Proof. induction l1 as [|a l1 IH]; cbn; [done|]. by destruct (P a). Qed.

(** An entry [upload] writes is the one found at its path, whatever the
    base tree holds. *)
Lemma find_overlay_new base items p en :
  List.find (fun e => bool_decide (BlobEntry.path e = p)) (as_entry <$> items) = Some en ->
  List.find (fun e => bool_decide (BlobEntry.path e = p)) (overlay base items) = Some en.
Proof.
  intros Hfind. unfold overlay. rewrite find_app, Hfind.
  destruct (List.find _ (List.filter _ base)) as [o|] eqn:Eo; [exfalso|done].
  apply find_some in Eo as [Hin Hp%bool_decide_eq_true].
  apply filter_In in Hin as [_ Hq]. apply negb_true_iff in Hq.
  apply find_some in Hfind as [Hen Hpe%bool_decide_eq_true].
  apply list_elem_of_In, list_elem_of_fmap in Hen as (item & -> & Hitem).
  assert (existsb (fun n => bool_decide (TreeItem.path n = BlobEntry.path o)) items = true)
    as Hex; [|congruence].
  apply existsb_exists. exists item. split; [by apply list_elem_of_In|].
  apply bool_decide_eq_true. cbn in Hpe. congruence.
Qed.

Lemma find_chunk_entry path first (l : list Z) rest k i :
  NoDup l -> l !! k = Some i ->
  List.find
    (fun e => bool_decide (BlobEntry.path e = path +:+ "/chunk_" +:+ pretty (i + 1)))
    (as_entry <$> (imap (fun k i => chunk_item path i (first + k)%nat) l ++ rest))
  = Some (as_entry (chunk_item path i (first + k)%nat)).
Proof.
  revert first k. induction l as [|a l IH]; intros first k Hnd Hk; [done|].
  rewrite imap_cons. cbn [app fmap list_fmap List.find].
  apply NoDup_cons in Hnd as [Ha Hnd].
  destruct k as [|k]; cbn in Hk.
  - injection Hk as ->. cbn. by rewrite bool_decide_eq_true_2.
  - assert (a <> i) as Hne.
    { intros ->. apply Ha. by eapply list_elem_of_lookup_2. }
    cbn [as_entry chunk_item TreeItem.path BlobEntry.path].
    rewrite bool_decide_eq_false_2 by (intros E; by apply chunk_path_inj in E).
    rewrite (imap_ext _ (fun k i => chunk_item path i (S first + k)%nat)).
    + rewrite (IH (S first) k Hnd Hk). do 3 f_equal. lia.
    + intros j x _. cbn. f_equal. lia.
Qed.

Lemma find_manifest_entry path first (l : list Z) mBlob rBlob :
  List.find
    (fun e => bool_decide (BlobEntry.path e = path +:+ "/manifest.json"))
    (as_entry <$>
       (imap (fun k i => chunk_item path i (first + k)%nat) l ++
        [TreeItem.mk (path +:+ "/manifest.json") "100644" ItemType.blob mBlob;
         TreeItem.mk "registry.json" "100644" ItemType.blob rBlob]))
  = Some (BlobEntry.mk (path +:+ "/manifest.json") "100644" mBlob).
Proof.
  revert first. induction l as [|a l IH]; intros first.
  - cbn. by rewrite bool_decide_eq_true_2.
  - rewrite imap_cons. cbn [app fmap list_fmap List.find].
    cbn [as_entry chunk_item TreeItem.path BlobEntry.path].
    rewrite bool_decide_eq_false_2.
    + rewrite (imap_ext _ (fun k i => chunk_item path i (S first + k)%nat)).
      * apply IH.
      * intros j x _. cbn. f_equal. lia.
    + intros E. apply (inj (String.app path)) in E. discriminate.
Qed.

Lemma lookup_after {A} (l1 l2 l3 : list A) k :
  (l1 ++ l2 ++ l3) !! (length l1 + length l2 + k)%nat = l3 !! k.
Proof.
  rewrite lookup_app_r by lia. rewrite lookup_app_r by lia. f_equal. lia.
Qed.

Lemma lookup_between {A} (l1 l2 l3 : list A) k x :
  l2 !! k = Some x -> (l1 ++ l2 ++ l3) !! (length l1 + k)%nat = Some x.
Proof.
  intros Hk. rewrite lookup_app_r by lia.
  replace (length l1 + k - length l1)%nat with k by lia.
  by apply lookup_app_l_Some.
Qed.

(** After a successful upload on a quiet network, a mirror in step with the
    branch serves the manifest and every chunk of the uploaded buffer. *)
Lemma upload_mirror_serves e input w asset w' :
  GithubCDN.upload quiet config e input w = (inr asset, w') ->
  exists name type,
    let buffer := input_buffer input in
    let m := mirror_of (remote w') (CDNAsset.path asset) in
    asset = GithubCDN.upload_asset config e name type buffer /\
    manifest_json m
      = Response true (ManifestDoc (GithubCDN.upload_manifest e name type buffer)) /\
    serves_chunks m m buffer.
Proof.
  intros H. unfold GithubCDN.upload in H.
  apply bind_inr_inv in H as ([[name type] buffer] & w0 & Hres & H).
  assert (w0 = w /\ buffer = input_buffer input) as [-> ->].
  { destruct input; cbn in Hres; unfold mret, M_ret, throw in Hres; by simplify_eq. }
  apply bind_inr_inv in H as ([asset' commit] & w1 & Hstage & H). cbv beta iota in H.
  apply bind_inr_inv in H as ([] & w2 & Hpatch & H). cbv beta in H.
  apply PATCH_ref_quiet in Hpatch.
  assert (remote w' = remote w2 /\ asset = asset') as [Hw' ->].
  { unfold GithubCDN.emit_upload, onUpdate in H. cbn in H. by injection H as <- <-. }
  apply upload_stage_quiet_writes in Hstage
    as (base & entries & registry & -> & -> & Hobjs).
  exists name, type. cbv zeta. split; [done|].
  set (buffer := input_buffer input) in *.
  set (n := totalChunks_of (byteLength buffer)) in *.
  set (first := length (objects (remote w))) in *.
  set (path := GithubCDN.upload_path e name) in *.
  set (blobs := (fun i => Blob (Raw (chunk_at buffer i))) <$> seqZ 0 n) in *.
  assert (length blobs = Z.to_nat n) as Hblobs
    by (unfold blobs; by rewrite length_fmap, length_seqZ).
  rewrite Hw', Hpatch. cbn [CDNAsset.path GithubCDN.upload_asset]. fold path.
  set (R := mkRepo (objects (remote w1)) (Some (first + Z.to_nat n + 3)%nat)).
  assert (tree_entries R (first + Z.to_nat n + 3)%nat
          = Some (overlay entries
                    (upload_items path n first (first + Z.to_nat n)
                       (first + Z.to_nat n + 1)))) as Htree.
  { unfold tree_entries. cbn [R objects]. rewrite Hobjs.
    unfold first at 1. rewrite <- Hblobs at 1. rewrite lookup_after. cbn.
    replace (first + Z.to_nat n + 2)%nat with (length (objects (remote w)) + length blobs + 2)%nat
      by (unfold first; lia).
    by rewrite lookup_after. }
  split.
  - unfold mirror_of, manifest_json, GET_contents. cbn [R head]. fold R.
    rewrite Htree. unfold upload_items.
    rewrite (find_overlay_new _ _ _ _ (find_manifest_entry path first (seqZ 0 n) _ _)).
    unfold GET_blob. cbn [BlobEntry.sha R objects]. rewrite Hobjs.
    replace (first + Z.to_nat n)%nat with (length (objects (remote w)) + length blobs + 0)%nat
      by (unfold first; lia).
    by rewrite lookup_after.
  - intros i Hi. fold n in Hi.
    assert (seqZ 0 n !! Z.to_nat (i - 1) = Some (i - 1)) as Hk.
    { rewrite lookup_seqZ_lt by lia. f_equal. lia. }
    unfold Fetch.get, mirror_of, chunk_file, GET_contents. cbn [R head]. fold R.
    rewrite Htree.
    replace (pretty i) with (pretty (i - 1 + 1)) by (f_equal; lia).
    unfold upload_items.
    rewrite (find_overlay_new _ _ _ _
               (find_chunk_entry path first (seqZ 0 n) _ _ _ (NoDup_seqZ _ _) Hk)).
    unfold GET_blob. cbn [as_entry chunk_item TreeItem.sha BlobEntry.sha R objects].
    rewrite Hobjs. unfold first.
    rewrite (lookup_between _ blobs _ _ (Blob (Raw (chunk_at buffer (i - 1))))).
    + done.
    + unfold blobs. by rewrite list_lookup_fmap, Hk.
Qed.

(** Upload, then fetch from mirrors in step with the branch: the manifest
    is found, and whatever the order of arrival, a closed stream has
    delivered the uploaded buffer, byte for byte. *)
Lemma upload_then_fetch e input w asset w' w2 :
  GithubCDN.upload quiet config e input w = (inr asset, w') ->
  let m := mirror_of (remote w') (CDNAsset.path asset) in
  exists manifest w3,
    Fetch.fetch m m w2 = (inr (Fetch.start, manifest), w3) /\
    forall schedule s,
      Fetch.run m m manifest schedule Fetch.start = Some s ->
      stream s <> Errored /\
      (stream s = Closed -> mjoin (enqueued s) = input_buffer input).
Proof.
  intros (name & type & -> & Hmanifest & Hserves)%upload_mirror_serves m.
  cbv zeta in Hmanifest, Hserves. fold m in Hmanifest, Hserves.
  exists (GithubCDN.upload_manifest e name type (input_buffer input)). eexists.
  split.
  - unfold Fetch.fetch, Fetch.getManifest. rewrite Hmanifest.
    rewrite !run_bind. cbn. reflexivity.
  - intros schedule s Hrun.
    destruct (emitted_prefix m m (input_buffer input)
                (GithubCDN.upload_manifest e name type (input_buffer input))
                schedule s eq_refl Hserves Hrun)
      as (Herr & Htake & Hclosed).
    split; [done|]. intros Hc. specialize (Hclosed Hc).
    destruct (totalChunks_spec (input_buffer input)) as (Hpos & _). cbv zeta in Hpos.
    rewrite Htake, Hclosed, take_ge by (rewrite chunks_length; lia).
    apply chunks_concat.
Qed.

End round_trip.
